(** * Mass-spring-damper physics engine: integrator, forcing library, system wrapper

    A shallow embedding of [src/physics/integrators.js],
    [src/physics/forcingFunctions.js] and [src/physics/MassSpringSystem.js],
    and of the statistics that [src/rendering/SpringAnimator.js] and
    [PhasePortrait.js] compute from the states.

    - A JavaScript number is an IEEE-754 binary64 value: Rocq's primitive
      [float], whose operations are the correctly rounded ones that
      JavaScript's [+ - * /], [Math.sqrt] and [Math.abs] perform.
    - [Math.sin] and [Math.cos] are implementation-approximated in
      ECMAScript; they are operations of the [Host] the code runs on.
    - An object literal used as a parameter bag is a [gmap string float];
      a destructuring default [{ a = d }] reads the key with a default.
    - The state object [{y, v, t}] is mutable and may be shared, so state
      objects live in a heap and the system holds a location.
    - A method is a function from the machine (receiver and heap) to an
      outcome and the machine it leaves; a [throw] stops the method and
      keeps whatever was assigned before it.
    - A call [f(...array)] passes one argument for each element; the
      engine bounds the number of arguments of a call, and the bound is a
      parameter of the model.
    - Real numbers enter only where a computed number is compared with a
      mathematical one (the cosine); the comparison is run on
      machine-word integers and proved sound on [Z] and [R]. *)

From Stdlib Require Import Floats ZArith Reals Lra Lia.
From Bignums Require Import BigZ.
From stdpp Require Import gmap strings list.

Set Warnings "-inexact-float,-abstract-large-number".
Local Open Scope float_scope.

(** ** JavaScript numbers *)

(** [Math.PI] *)
Definition Math_PI : float := 3.141592653589793.

Definition Math_sqrt (x : float) : float := PrimFloat.sqrt x.
Definition Math_abs (x : float) : float := PrimFloat.abs x.

(** The remainder operator [n % d] on numbers (ECMAScript Number::remainder):
    NaN when an operand is NaN, the dividend is infinite or the divisor is
    zero; the dividend itself when it is a zero or the divisor is infinite;
    otherwise [n - d * q] with [q] the quotient truncated towards zero, which
    has the sign of the dividend and is exactly representable. *)
Definition js_rem (n d : float) : float :=
  match Prim2SF n, Prim2SF d with
  | S754_nan, _ | _, S754_nan => nan
  | S754_infinity _, _ => nan
  | _, S754_zero _ => nan
  | S754_zero _, _ => n
  | S754_finite _ _ _, S754_infinity _ => n
  | S754_finite sn mn en, S754_finite _ md ed =>
      let e := Z.min en ed in
      let a := (Z.pos mn * 2 ^ (en - e))%Z in
      let b := (Z.pos md * 2 ^ (ed - e))%Z in
      let r := Z.rem a b in
      if (r =? 0)%Z then (if sn then (-0)%float else 0%float)
      else SF2Prim (binary_normalize prec emax (if sn then (- r)%Z else r) e false)
  end.

Infix "%%" := js_rem (at level 40, left associativity) : float_scope.

(** ** Outcomes of a call that may throw *)

Inductive result (A : Type) : Type :=
| Ok (a : A)
| Throw (message : string).
Arguments Ok {A} a.
Arguments Throw {A} message.

#[export] Instance result_ret : MRet result := fun A a => Ok a.
#[export] Instance result_bind : MBind result := fun A B f r =>
  match r with
  | Ok a => f a
  | Throw msg => Throw msg
  end.

(** ** The host: what the JavaScript runtime supplies *)

Class Host : Type := {
  (** [Math.sin], [Math.cos] *)
  Math_sin : float -> float;
  Math_cos : float -> float;
  (** The members every object literal inherits from [Object.prototype]
      are callable (or objects): [proto_call name t params] is what
      calling the member [name] with [(t, params)] contributes to the sum
      [-b * v - k * y + force] after JavaScript's coercions (NaN where the
      sum degenerates to a string), or the TypeError it throws. *)
  proto_call : string -> float -> gmap string float -> result float
}.

(** ** integrators.js *)

Module Integrators.

(** The state vector [{y, v, t}] *)
Record State : Type := mkState { y : float; v : float; t : float }.

(** The derivatives [{dydt, dvdt}] *)
Record Deriv : Type := mkDeriv { dydt : float; dvdt : float }.

Definition rk4Step (state : State) (derivativeFn : State -> result Deriv)
    (dt : float) : result State :=
  let 'mkState y v t := state in
  (* k1: slope at the beginning of interval *)
  k1 ← derivativeFn {| y := y; v := v; t := t |};
  (* k2: slope at the midpoint, using k1 *)
  k2 ← derivativeFn {| y := y + 0.5 * dydt k1 * dt;
                       v := v + 0.5 * dvdt k1 * dt;
                       t := t + 0.5 * dt |};
  (* k3: slope at the midpoint, using k2 *)
  k3 ← derivativeFn {| y := y + 0.5 * dydt k2 * dt;
                       v := v + 0.5 * dvdt k2 * dt;
                       t := t + 0.5 * dt |};
  (* k4: slope at the end of interval, using k3 *)
  k4 ← derivativeFn {| y := y + dydt k3 * dt;
                       v := v + dvdt k3 * dt;
                       t := t + dt |};
  (* Weighted average: (k1 + 2*k2 + 2*k3 + k4) / 6 *)
  let dydt' := (dydt k1 + 2 * dydt k2 + 2 * dydt k3 + dydt k4) / 6 in
  let dvdt' := (dvdt k1 + 2 * dvdt k2 + 2 * dvdt k3 + dvdt k4) / 6 in
  Ok {| y := y + dydt' * dt; v := v + dvdt' * dt; t := t + dt |}.

Definition eulerStep (state : State) (derivativeFn : State -> result Deriv)
    (dt : float) : result State :=
  let 'mkState y v t := state in
  derivatives ← derivativeFn {| y := y; v := v; t := t |};
  Ok {| y := y + dydt derivatives * dt;
        v := v + dvdt derivatives * dt;
        t := t + dt |}.

End Integrators.

(** ** forcingFunctions.js *)

Module Forcing.

(** A destructured parameter with a default: [{ key = dflt }] *)
Definition param (params : gmap string float) (key : string) (dflt : float) : float :=
  default dflt (params !! key).

Section Presets.
Context {host : Host}.

Definition none (t : float) (params : gmap string float) : float := 0.

Definition constant (t : float) (params : gmap string float) : float :=
  let force := param params "force" 1.0 in
  force.

Definition sine (t : float) (params : gmap string float) : float :=
  let amplitude := param params "amplitude" 1.0 in
  let frequency := param params "frequency" 1.0 in
  let omega := 2 * Math_PI * frequency in
  amplitude * Math_sin (omega * t).

Definition cosine (t : float) (params : gmap string float) : float :=
  let amplitude := param params "amplitude" 1.0 in
  let frequency := param params "frequency" 1.0 in
  let omega := 2 * Math_PI * frequency in
  amplitude * Math_cos (omega * t).

Definition step (t : float) (params : gmap string float) : float :=
  let amplitude := param params "amplitude" 1.0 in
  let stepTime := param params "stepTime" 0.0 in
  if stepTime <=? t then amplitude else 0.

Definition square (t : float) (params : gmap string float) : float :=
  let amplitude := param params "amplitude" 1.0 in
  let frequency := param params "frequency" 1.0 in
  let period := 1 / frequency in
  let phase := (t %% period) / period in
  amplitude * (if phase <? 0.5 then 1 else -1).

Definition impulse (t : float) (params : gmap string float) : float :=
  let amplitude := param params "amplitude" 1.0 in
  let impulseTime := param params "impulseTime" 0.0 in
  let width := param params "width" 0.01 in
  let inImpulse := (impulseTime <=? t) && (t <? impulseTime + width) in
  if inImpulse then amplitude / width else 0.

(** The own properties of the object literal [presets] *)
Definition presets : gmap string (float -> gmap string float -> float) :=
  list_to_map [("none", none); ("constant", constant); ("sine", sine);
               ("cosine", cosine); ("step", step); ("square", square);
               ("impulse", impulse)].
End Presets.

(** The own properties of the object literal [defaultParams] *)
Definition defaultParams : gmap string (gmap string float) :=
  list_to_map
    [("none", ∅);
     ("constant", {[ "force" := 1.0 ]});
     ("sine", {[ "amplitude" := 1.0; "frequency" := 1.0 ]});
     ("cosine", {[ "amplitude" := 1.0; "frequency" := 1.0 ]});
     ("step", {[ "amplitude" := 1.0; "stepTime" := 1.0 ]});
     ("square", {[ "amplitude" := 1.0; "frequency" := 1.0 ]});
     ("impulse", {[ "amplitude" := 1.0; "impulseTime" := 1.0; "width" := 0.01 ]})].

(** [presets] and [defaultParams] are object literals, so their prototype
    is [Object.prototype]: a property read [obj[name]] that finds no own
    property continues there. These are its properties (ECMAScript
    20.1.3 and B.2.2); each holds a function, [__proto__] reads as
    [Object.prototype] itself, so every one of them is truthy. *)
Definition Object_prototype : list string :=
  ["constructor"; "hasOwnProperty"; "isPrototypeOf"; "propertyIsEnumerable";
   "toLocaleString"; "toString"; "valueOf"; "__proto__";
   "__defineGetter__"; "__defineSetter__"; "__lookupGetter__"; "__lookupSetter__"].

(** The value of a property read on an object literal; [None] is
    [undefined]. *)
Inductive member (V : Type) : Type :=
| Own (value : V)
| Inherited (name : string).
Arguments Own {V} value.
Arguments Inherited {V} name.

Definition get {V} (obj : gmap string V) (name : string) : option (member V) :=
  match obj !! name with
  | Some value => Some (Own value)
  | None => if decide (name ∈ Object_prototype) then Some (Inherited name) else None
  end.

(** Object spread [{ ...a, ...b }]: the later operand wins *)
Definition spread (a b : gmap string float) : gmap string float := b ∪ a.

(** The own enumerable properties that [...value] copies: those of the
    object; none for [undefined], a function or [Object.prototype]. *)
Definition spreadable (value : option (member (gmap string float))) : gmap string float :=
  match value with
  | Some (Own props) => props
  | _ => ∅
  end.

Section Lookup.
Context {host : Host}.

Definition getForcingFunction (name : string)
  : result (member (float -> gmap string float -> float)) :=
  match get presets name with
  | None => Throw ("Unknown forcing function: " +:+ name)
  | Some fn => Ok fn
  end.
End Lookup.

End Forcing.

(** ** MassSpringSystem.js *)

Module Config.
(** The constructor's configuration object; [None] is an omitted key *)
Record t : Type := make {
  m : option float; b : option float; k : option float;
  y0 : option float; v0 : option float }.
Definition empty : t := make None None None None None.
End Config.

Module Partial.
(** The argument of [setParameters] *)
Record t : Type := make { m : option float; b : option float; k : option float }.
End Partial.

Module Parameters.
(** The object [getParameters] returns *)
Record t : Type := make { m : float; b : float; k : float }.
End Parameters.

Module Selection.
(** The object [getForcing] returns *)
Record t : Type := make { name : string; params : gmap string float }.
End Selection.

Module Properties.
(** The object [getSystemProperties] returns *)
Record t : Type := make {
  omega0 : float; f0 : float; T0 : float; zeta : float; regime : string;
  omegaD : float; fD : float; Q : float }.
End Properties.

Module System.
Import Integrators.

Abbreviation loc := nat (only parsing).

(** The fields of [this] *)
Record MassSpringSystem : Type := mkSystem {
  m : float; b : float; k : float;
  y0 : float; v0 : float;
  state : loc;
  forcingName : string;
  forcingFn : Forcing.member (float -> gmap string float -> float);
  forcingParams : gmap string float }.

(** The receiver and the heap of state objects *)
Record machine : Type := mkMachine { this : MassSpringSystem; objs : list State }.

(** A method body: runs on a machine, yields an outcome and a machine *)
Definition method (A : Type) : Type := machine -> result A * machine.

#[export] Instance method_ret : MRet method := fun A a σ => (Ok a, σ).
#[export] Instance method_bind : MBind method := fun A B f c σ =>
  match c σ with
  | (Ok a, σ') => f a σ'
  | (Throw msg, σ') => (Throw msg, σ')
  end.

Definition throw {A} (msg : string) : method A := fun σ => (Throw msg, σ).
Definition lift {A} (r : result A) : method A := fun σ => (r, σ).
Definition self : method MassSpringSystem := fun σ => (Ok (this σ), σ).
Definition assign (upd : MassSpringSystem -> MassSpringSystem) : method unit :=
  fun σ => (Ok tt, mkMachine (upd (this σ)) (objs σ)).
Definition skip : method unit := mret tt.

(** Allocation of an object literal and a read through a reference *)
Definition new_object (o : State) : method loc :=
  fun σ => (Ok (length (objs σ)), mkMachine (this σ) (objs σ ++ [o])).
Definition deref (l : loc) : method State :=
  fun σ => match objs σ !! l with
           | Some o => (Ok o, σ)
           | None => (Throw "dangling reference", σ)
           end.

(** An assignment by the caller to an object it holds *)
Definition mutate (l : loc) (o : State) (σ : machine) : machine :=
  mkMachine (this σ) (<[l := o]> (objs σ)).

Definition set_m (x : float) (s : MassSpringSystem) : MassSpringSystem :=
  mkSystem x (b s) (k s) (y0 s) (v0 s) (state s) (forcingName s) (forcingFn s) (forcingParams s).
Definition set_b (x : float) (s : MassSpringSystem) : MassSpringSystem :=
  mkSystem (m s) x (k s) (y0 s) (v0 s) (state s) (forcingName s) (forcingFn s) (forcingParams s).
Definition set_k (x : float) (s : MassSpringSystem) : MassSpringSystem :=
  mkSystem (m s) (b s) x (y0 s) (v0 s) (state s) (forcingName s) (forcingFn s) (forcingParams s).
Definition set_state (l : loc) (s : MassSpringSystem) : MassSpringSystem :=
  mkSystem (m s) (b s) (k s) (y0 s) (v0 s) l (forcingName s) (forcingFn s) (forcingParams s).
Definition set_forcing (name : string)
    (fn : Forcing.member (float -> gmap string float -> float))
    (params : gmap string float) (s : MassSpringSystem) : MassSpringSystem :=
  mkSystem (m s) (b s) (k s) (y0 s) (v0 s) (state s) name fn params.

Section Methods.
Context {host : Host}.

(** [new MassSpringSystem(config)] on a heap: the new machine, or the
    error thrown, in which case no object exists. *)
Definition constructor (config : Config.t) (heap : list State) : result machine :=
  let m := default 1.0 (Config.m config) in
  let b := default 0.1 (Config.b config) in
  let k := default 1.0 (Config.k config) in
  let y0 := default 1.0 (Config.y0 config) in
  let v0 := default 0.0 (Config.v0 config) in
  (* Validate parameters *)
  if m <=? 0 then Throw "Mass must be positive"
  else if b <? 0 then Throw "Damping coefficient must be non-negative"
  else if k <? 0 then Throw "Spring constant must be non-negative"
  else
    Ok (mkMachine
          {| m := m; b := b; k := k;
             y0 := y0; v0 := v0;
             state := length heap;
             forcingName := "none";
             forcingFn := Forcing.Own Forcing.none;
             forcingParams := ∅ |}
          (heap ++ [ {| y := y0; v := v0; t := 0.0 |} ])).

(** [this.forcingFn(t, this.forcingParams)] as it enters the sum *)
Definition call (fn : Forcing.member (float -> gmap string float -> float))
    (t : float) (params : gmap string float) : result float :=
  match fn with
  | Forcing.Own f => Ok (f t params)
  | Forcing.Inherited name => proto_call name t params
  end.

Definition computeDerivatives (this : MassSpringSystem) (state : State)
  : result Deriv :=
  let 'mkState y v t := state in
  let '(m, b, k) := (m this, b this, k this) in
  (* External forcing *)
  force ← call (forcingFn this) t (forcingParams this);
  (* dy/dt = v *)
  let dydt := v in
  (* dv/dt = (-b*v - k*y + f(t)) / m *)
  let dvdt := (- b * v - k * y + force) / m in
  Ok {| dydt := dydt; dvdt := dvdt |}.

Definition step (dt : float) : method loc :=
  this ← self;
  current ← deref (state this);
  next ← lift (rk4Step current (fun state => computeDerivatives this state) dt);
  l ← new_object next;
  assign (set_state l);;
  latest ← deref l;
  new_object latest.

Definition setParameters (p : Partial.t) : method unit :=
  match Partial.m p with
  | Some m =>
      (if m <=? 0 then throw "Mass must be positive" else skip);;
      assign (set_m m)
  | None => skip
  end;;
  match Partial.b p with
  | Some b =>
      (if b <? 0 then throw "Damping coefficient must be non-negative" else skip);;
      assign (set_b b)
  | None => skip
  end;;
  match Partial.k p with
  | Some k =>
      (if k <? 0 then throw "Spring constant must be non-negative" else skip);;
      assign (set_k k)
  | None => skip
  end.

(** [setForcing(name, params = {})]: [None] is an omitted argument *)
Definition setForcing (name : string) (params : option (gmap string float))
  : method unit :=
  let params := default ∅ params in
  match Forcing.get Forcing.presets name with
  | None => throw ("Unknown forcing function: " +:+ name)
  | Some fn =>
      assign (set_forcing name fn
                (Forcing.spread
                   (Forcing.spreadable (Forcing.get Forcing.defaultParams name))
                   params))
  end.

Definition getState : method loc :=
  this ← self;
  current ← deref (state this);
  new_object current.

Definition getParameters : method Parameters.t :=
  this ← self;
  mret (Parameters.make (m this) (b this) (k this)).

Definition getForcing : method Selection.t :=
  this ← self;
  mret (Selection.make (forcingName this) (forcingParams this)).

Definition reset : method unit :=
  this ← self;
  l ← new_object {| y := y0 this; v := v0 this; t := 0.0 |};
  assign (set_state l).

Definition getSystemProperties : method Properties.t :=
  this ← self;
  let '(m, b, k) := (m this, b this, k this) in
  (* Natural frequency *)
  let omega0 := Math_sqrt (k / m) in
  let f0 := omega0 / (2 * Math_PI) in
  let T0 := 1 / f0 in
  (* Damping ratio *)
  let zeta := b / (2 * Math_sqrt (m * k)) in
  (* Damping regime *)
  let discriminant := b * b - 4 * m * k in
  let regime :=
    if Math_abs discriminant <? 1e-10 then "critical"
    else if 0 <? discriminant then "overdamped"
    else "underdamped" in
  (* Damped natural frequency (for underdamped case) *)
  let omegaD :=
    if String.eqb regime "underdamped"
    then omega0 * Math_sqrt (1 - zeta * zeta) else 0 in
  let fD := omegaD / (2 * Math_PI) in
  (* Quality factor *)
  let Q := Math_sqrt (m * k) / b in
  mret (Properties.make omega0 f0 T0 zeta regime omegaD fD Q).

Definition getEnergy : method float :=
  this ← self;
  current ← deref (state this);
  let 'mkState y v _ := current in
  let kineticEnergy := 0.5 * m this * v * v in
  let potentialEnergy := 0.5 * k this * y * y in
  mret (kineticEnergy + potentialEnergy).
End Methods.

End System.

(** * Specification-side definitions *)

Import Integrators System.

(** ** Reading the machine *)

(** The state object the receiver currently refers to *)
Definition current (σ : machine) : option State := objs σ !! state (this σ).

(** The parameter triple, as [getParameters] reports it *)
Definition parameters (σ : machine) : Parameters.t :=
  Parameters.make (m (this σ)) (b (this σ)) (k (this σ)).

(** The forcing selection, as [getForcing] reports it *)
Definition selection (σ : machine) : Selection.t :=
  Selection.make (forcingName (this σ)) (forcingParams (this σ)).

(** A machine is well formed when its receiver refers to a live state
    object; the constructor establishes it and every method keeps it. *)
Definition wf (σ : machine) : Prop := is_Some (current σ).

(** The configuration with every omitted key replaced by its default *)
Definition fill (config : Config.t) : Config.t :=
  Config.make (Some (default 1.0 (Config.m config)))
              (Some (default 0.1 (Config.b config)))
              (Some (default 1.0 (Config.k config)))
              (Some (default 1.0 (Config.y0 config)))
              (Some (default 0.0 (Config.v0 config))).

(** The calls a client makes between construction and a reset *)
Inductive operation : Type :=
| Step (dt : float)
| SetParameters (p : Partial.t)
| SetForcing (name : string) (params : option (gmap string float)).

(** A supplied field passes its check in [setParameters] *)
Definition mass_ok (p : Partial.t) : bool :=
  match Partial.m p with Some x => negb (x <=? 0) | None => true end.
Definition damping_ok (p : Partial.t) : bool :=
  match Partial.b p with Some x => negb (x <? 0) | None => true end.
Definition spring_ok (p : Partial.t) : bool :=
  match Partial.k p with Some x => negb (x <? 0) | None => true end.

(** The claim that a failing [setParameters] changes nothing *)
Definition setParameters_atomic : Prop :=
  forall (σ : machine) (p : Partial.t),
    mass_ok p && damping_ok p && spring_ok p = false ->
    exists msg, fst (setParameters p σ) = Throw msg /\
                parameters (snd (setParameters p σ)) = parameters σ.

(** A system built with the default configuration on an empty heap *)
Definition default_system : machine :=
  mkMachine
    {| m := 1.0; b := 0.1; k := 1.0; y0 := 1.0; v0 := 0.0; state := 0%nat;
       forcingName := "none"; forcingFn := Forcing.Own Forcing.none;
       forcingParams := ∅ |}
    [ {| y := 1.0; v := 0.0; t := 0.0 |} ].

Section Run.
Context {host : Host}.

(** One call; an exception is caught by the client, which goes on with
    the machine the call left. *)
Definition perform (c : operation) (σ : machine) : machine :=
  match c with
  | Step dt => snd (step dt σ)
  | SetParameters p => snd (setParameters p σ)
  | SetForcing name params => snd (setForcing name params σ)
  end.

Definition run (calls : list operation) (σ : machine) : machine :=
  foldl (fun σ c => perform c σ) σ calls.
End Run.

(** The keys of the forcing catalog *)
Definition catalog : list string :=
  ["none"; "constant"; "sine"; "cosine"; "step"; "square"; "impulse"].

(** ** The integrator's formula *)

(** The six stages as the specification lists them, for a derivative
    function of [(y, v, t)]; slopes are combined as vectors. The product
    of one half, [dt] and a slope is taken as [dt * (0.5 * slope)]. *)
Definition scaled (c : float) (k : Deriv) : Deriv :=
  {| dydt := c * dydt k; dvdt := c * dvdt k |}.
Definition plus (k k' : Deriv) : Deriv :=
  {| dydt := dydt k + dydt k'; dvdt := dvdt k + dvdt k' |}.
Definition over (k : Deriv) (c : float) : Deriv :=
  {| dydt := dydt k / c; dvdt := dvdt k / c |}.

Definition rk4_formula (y v t : float) (deriv : float -> float -> float -> Deriv)
    (dt : float) : State :=
  let k1 := deriv y v t in
  let k2 := deriv (y + dt * (0.5 * dydt k1)) (v + dt * (0.5 * dvdt k1)) (t + 0.5 * dt) in
  let k3 := deriv (y + dt * (0.5 * dydt k2)) (v + dt * (0.5 * dvdt k2)) (t + 0.5 * dt) in
  let k4 := deriv (y + dt * dydt k3) (v + dt * dvdt k3) (t + dt) in
  let combined := over (plus (plus (plus k1 (scaled 2 k2)) (scaled 2 k3)) k4) 6 in
  {| y := y + dt * dydt combined; v := v + dt * dvdt combined; t := t + dt |}.

(** The same stages with the half step taken as [(dt / 2) * slope] and
    the midpoint as [t + dt / 2] *)
Definition rk4_formula_halved (y v t : float)
    (deriv : float -> float -> float -> Deriv) (dt : float) : State :=
  let k1 := deriv y v t in
  let k2 := deriv (y + dt / 2 * dydt k1) (v + dt / 2 * dvdt k1) (t + dt / 2) in
  let k3 := deriv (y + dt / 2 * dydt k2) (v + dt / 2 * dvdt k2) (t + dt / 2) in
  let k4 := deriv (y + dt * dydt k3) (v + dt * dvdt k3) (t + dt) in
  let combined := over (plus (plus (plus k1 (scaled 2 k2)) (scaled 2 k3)) k4) 6 in
  {| y := y + dt * dydt combined; v := v + dt * dvdt combined; t := t + dt |}.

(** The oscillator [y'' = -y] as a derivative function *)
Definition oscillator (y v t : float) : Deriv := {| dydt := v; dvdt := - y |}.

(** The derivative function of the system for a forcing function [f] *)
Definition derivative (s : MassSpringSystem) (f : float -> gmap string float -> float)
    (y v t : float) : Deriv :=
  {| dydt := v;
     dvdt := (- b s * v - k s * y + f t (forcingParams s)) / m s |}.

(** ** The forcing catalog *)

(** The catalog table of the specification: one variant per preset with
    its parameters, the formula of each, and the defaults. *)
Inductive waveform : Type :=
| WNone
| WConstant (force : float)
| WSine (amplitude frequency : float)
| WCosine (amplitude frequency : float)
| WStep (amplitude stepTime : float)
| WSquare (amplitude frequency : float)
| WImpulse (amplitude impulseTime width : float).

Section Catalog.
Context {host : Host}.

Definition waveform_value (w : waveform) (t : float) : float :=
  match w with
  | WNone => 0
  | WConstant force => force
  | WSine amplitude frequency => amplitude * Math_sin (2 * Math_PI * frequency * t)
  | WCosine amplitude frequency => amplitude * Math_cos (2 * Math_PI * frequency * t)
  | WStep amplitude stepTime => if stepTime <=? t then amplitude else 0
  | WSquare amplitude frequency =>
      let period := 1 / frequency in
      amplitude * (if (t %% period) / period <? 0.5 then 1 else -1)
  | WImpulse amplitude impulseTime width =>
      if (impulseTime <=? t) && (t <? impulseTime + width)
      then amplitude / width else 0
  end.

Definition waveform_params (w : waveform) : gmap string float :=
  match w with
  | WNone => ∅
  | WConstant force => {[ "force" := force ]}
  | WSine amplitude frequency | WCosine amplitude frequency
  | WSquare amplitude frequency =>
      {[ "amplitude" := amplitude; "frequency" := frequency ]}
  | WStep amplitude stepTime =>
      {[ "amplitude" := amplitude; "stepTime" := stepTime ]}
  | WImpulse amplitude impulseTime width =>
      {[ "amplitude" := amplitude; "impulseTime" := impulseTime; "width" := width ]}
  end.

Definition catalog_table : list (string * waveform) :=
  [("none", WNone);
   ("constant", WConstant 1.0);
   ("sine", WSine 1.0 1.0);
   ("cosine", WCosine 1.0 1.0);
   ("step", WStep 1.0 1.0);
   ("square", WSquare 1.0 1.0);
   ("impulse", WImpulse 1.0 1.0 0.01)].

(** The force the machine applies at time [t] *)
Definition force_at (σ : machine) (t : float) : result float :=
  call (forcingFn (this σ)) t (forcingParams (this σ)).
End Catalog.

(** ** The modulus of the catalog table *)


Section Table.
Context {host : Host}.

End Table.


(** ** Signs in binary64 *)

(** A strictly positive value: a positive finite number or +infinity *)
Definition SFpositive (x : spec_float) : Prop :=
  match x with
  | S754_infinity false | S754_finite false _ _ => True
  | _ => False
  end.

(** A value with the sign bit set: -0, a negative number or -infinity *)
Definition SFminus (x : spec_float) : Prop :=
  match x with
  | S754_zero true | S754_infinity true | S754_finite true _ _ => True
  | _ => False
  end.

(** ** The regime classification *)

(** The tolerance of the regime classification *)
Definition tolerance : float := 1e-10.

(** The claim that zero damping always gives zeta = 0, the underdamped
    regime and an infinite quality factor *)
Definition zero_damping_claim : Prop :=
  forall (σ : machine) (p : Properties.t),
    (0 <? m (this σ)) = true -> (b (this σ) =? 0) = true -> (0 <=? k (this σ)) = true ->
    fst (getSystemProperties σ) = Ok p ->
    (Properties.zeta p =? 0) = true
    /\ Properties.regime p = "underdamped"
    /\ Properties.Q p = infinity.

(** The free particle of the edge-case tests: m = 1, b = 0, k = 0 *)
Definition free_particle : machine :=
  mkMachine
    {| m := 1.0; b := 0.0; k := 0.0; y0 := 0.0; v0 := 1.0; state := 0%nat;
       forcingName := "none"; forcingFn := Forcing.Own Forcing.none;
       forcingParams := ∅ |}
    [ {| y := 0.0; v := 1.0; t := 0.0 |} ].

(** ** Exact values and a verified enclosure of the cosine *)

(** The real number a finite binary64 value stands for *)
Definition SF2R (x : spec_float) : R :=
  match x with
  | S754_finite s m e => (IZR (cond_Zopp s (Z.pos m)) * powerRZ 2 e)%R
  | _ => 0%R
  end.
Definition number_value (x : float) : R := SF2R (Prim2SF x).

Definition is_finite (x : float) : bool :=
  match Prim2SF x with
  | S754_zero _ | S754_finite _ _ _ => true
  | _ => false
  end.

(** Fixed-point arithmetic: the integer [A] stands for [A / 2 ^ frac_bits] *)
Definition frac_bits : Z := 78.
Definition scale : Z := 2 ^ frac_bits.
(** The positions are compared on a finer grid, on which they are exact *)
Definition fine_bits : Z := 200.
Definition fine_scale : Z := 2 ^ fine_bits.
(** The angle is halved this many times before the series is used *)
Definition halvings : nat := 18.

Definition floor_div (a d : Z) : Z := (a / d)%Z.
Definition ceil_div (a d : Z) : Z := (- ((- a) / d))%Z.
Definition floor_shift (a : Z) : Z := Z.shiftr a frac_bits.
Definition ceil_shift (a : Z) : Z := (- Z.shiftr (- a) frac_bits)%Z.

(** [x * 2 ^ shift] when that is an integer *)
Definition fixed (x : spec_float) (shift : Z) : option Z :=
  match x with
  | S754_zero _ => Some 0%Z
  | S754_finite s m e =>
      if (0 <=? e + shift)%Z then Some (cond_Zopp s (Z.pos m) * 2 ^ (e + shift))%Z else None
  | _ => None
  end.

(** An interval with fixed-point end points around a real number *)
Definition encloses (I : Z * Z) (x : R) : Prop :=
  (IZR (fst I) <= x * IZR scale <= IZR (snd I))%R.

(** [1 - a^2/2 <= cos a <= 1 - a^2/2 + a^4/24] for the angle [A / scale] *)
Definition cos_small (A : Z) : Z * Z :=
  let u_lo := floor_shift (A * A) in
  let u_hi := ceil_shift (A * A) in
  ((scale - ceil_div u_hi 2)%Z,
   (scale - floor_div u_lo 2 + ceil_div (ceil_shift (u_hi * u_hi)) 24)%Z).

(** [cos (2 x) = 2 (cos x)^2 - 1] on an enclosure of [cos x] *)
Definition double_angle (I : Z * Z) : Z * Z :=
  let '(lo, hi) := I in
  let lo2 := (lo * lo)%Z in
  let hi2 := (hi * hi)%Z in
  let below := if (0 <=? lo)%Z then lo2 else if (hi <=? 0)%Z then hi2 else 0%Z in
  let above := Z.max lo2 hi2 in
  ((floor_shift (2 * below) - scale)%Z, (ceil_shift (2 * above) - scale)%Z).

(** The enclosure of [cos x] for the angle [x = 2 ^ halvings * A / scale] *)
Definition cos_enclosure (A : Z) : Z * Z :=
  Nat.iter halvings double_angle (cos_small A).

(** The position of a state is within 0.001 of the cosine of its time *)
Definition within_tolerance (s : State) : bool :=
  match fixed (Prim2SF (y s)) fine_bits,
        fixed (Prim2SF (t s)) (frac_bits - Z.of_nat halvings) with
  | Some Y, Some A =>
      (Z.abs A <=? 2 * scale)%Z
      && (let '(lo, hi) := cos_enclosure A in
          (1000 * (Y * scale - lo * fine_scale) <? scale * fine_scale)%Z
          && (1000 * (hi * fine_scale - Y * scale) <? scale * fine_scale)%Z)
  | _, _ => false
  end.

(** The undamped, unforced oscillator of the accuracy test:
    m = 1, b = 0, k = 1, y0 = 1, v0 = 0 *)
Definition shm_config : Config.t :=
  Config.make (Some 1.0) (Some 0.0) (Some 1.0) (Some 1.0) (Some 0.0).

Definition shm : machine :=
  mkMachine
    {| m := 1.0; b := 0.0; k := 1.0; y0 := 1.0; v0 := 0.0; state := 0%nat;
       forcingName := "none"; forcingFn := Forcing.Own Forcing.none;
       forcingParams := ∅ |}
    [ {| y := 1.0; v := 0.0; t := 0.0 |} ].

(** One step of 0.01 s on the state alone *)
Definition shm_step (s : State) : State :=
  rk4_formula (y s) (v s) (t s) (derivative (this shm) Forcing.none) 0.01.

(** Every state of the next [n] steps is within tolerance *)
Fixpoint all_within (n : nat) (s : State) : bool :=
  within_tolerance s
  && match n with
     | O => true
     | S n' => all_within n' (shm_step s)
     end.

Definition shm_start : State := {| y := 1.0; v := 0.0; t := 0.0 |}.

(** ** The same enclosure on machine-word integers, to run it *)

Definition big_bits : bigZ := BigZ.of_Z frac_bits.
Definition big_scale : bigZ := BigZ.of_Z scale.
Definition big_fine_scale : bigZ := BigZ.of_Z fine_scale.

Definition big_floor_shift (a : bigZ) : bigZ := BigZ.shiftr a big_bits.
Definition big_ceil_shift (a : bigZ) : bigZ := BigZ.opp (BigZ.shiftr (BigZ.opp a) big_bits).

Definition big_pair (I : bigZ * bigZ) : Z * Z := (BigZ.to_Z (fst I), BigZ.to_Z (snd I)).

Definition big_cos_small (A : bigZ) : bigZ * bigZ :=
  let u_lo := big_floor_shift (BigZ.square A) in
  let u_hi := big_ceil_shift (BigZ.square A) in
  (BigZ.sub big_scale (BigZ.opp (BigZ.div (BigZ.opp u_hi) 2%bigZ)),
   BigZ.add (BigZ.sub big_scale (BigZ.div u_lo 2%bigZ))
            (BigZ.opp (BigZ.div (BigZ.opp (big_ceil_shift (BigZ.square u_hi))) 24%bigZ))).

Definition big_double_angle (I : bigZ * bigZ) : bigZ * bigZ :=
  let '(lo, hi) := I in
  let lo2 := BigZ.square lo in
  let hi2 := BigZ.square hi in
  let below := if BigZ.leb 0%bigZ lo then lo2 else if BigZ.leb hi 0%bigZ then hi2 else 0%bigZ in
  let above := BigZ.max lo2 hi2 in
  (BigZ.sub (big_floor_shift (BigZ.mul 2%bigZ below)) big_scale,
   BigZ.sub (big_ceil_shift (BigZ.mul 2%bigZ above)) big_scale).

Definition big_cos_enclosure (A : bigZ) : bigZ * bigZ :=
  Nat.iter halvings big_double_angle (big_cos_small A).

Definition big_within_tolerance (s : State) : bool :=
  match fixed (Prim2SF (y s)) fine_bits,
        fixed (Prim2SF (t s)) (frac_bits - Z.of_nat halvings) with
  | Some Y, Some A =>
      (Z.abs A <=? 2 * scale)%Z
      && (let '(lo, hi) := big_cos_enclosure (BigZ.of_Z A) in
          let Y' := BigZ.mul (BigZ.of_Z Y) big_scale in
          let UV := BigZ.mul big_scale big_fine_scale in
          BigZ.ltb (BigZ.mul 1000%bigZ (BigZ.sub Y' (BigZ.mul lo big_fine_scale))) UV
          && BigZ.ltb (BigZ.mul 1000%bigZ (BigZ.sub (BigZ.mul hi big_fine_scale) Y')) UV)
  | _, _ => false
  end.

Fixpoint big_all_within (n : nat) (s : State) : bool :=
  big_within_tolerance s
  && match n with
     | O => true
     | S n' => big_all_within n' (shm_step s)
     end.

(** ** A host to run the model on

    Sine and cosine are Taylor polynomials; the members inherited from
    [Object.prototype] behave as ECMAScript defines them when called with
    a number and an object: the three predicates return false, which adds
    as 0; [constructor] wraps the number, which adds as the number; the
    string conversions and [valueOf] make the sum a string and the
    lookups return undefined, so the acceleration is NaN; the definers
    reject a setter that is not callable, and [__proto__] is no function. *)
Definition sample_host : Host :=
  {| Math_sin := fun x => x - x * x * x / 6 + x * x * x * x * x / 120;
     Math_cos := fun x => 1 - x * x / 2 + x * x * x * x / 24;
     proto_call := fun name t _ =>
       if bool_decide (name ∈ ["hasOwnProperty"; "isPrototypeOf"; "propertyIsEnumerable"])
       then Ok 0
       else if bool_decide (name = "constructor") then Ok t
       else if bool_decide (name ∈ ["__defineGetter__"; "__defineSetter__"; "__proto__"])
       then Throw "TypeError"
       else Ok nan |}.

(** Caller-supplied forcing parameters for the examples *)
Definition sample_overrides : gmap string float := {[ "frequency" := 2.0 ]}.

(** ** More on binary64 values *)

(** The sign bit; [false] for NaN *)
Definition SFsign (x : spec_float) : bool :=
  match x with
  | S754_zero s | S754_infinity s | S754_finite s _ _ => s
  | S754_nan => false
  end.

(** Not below zero: NaN, a zero of either sign, or a positive value *)
Definition SFnonneg (x : spec_float) : Prop :=
  match x with
  | S754_nan | S754_zero _ => True
  | S754_infinity s | S754_finite s _ _ => s = false
  end.

(** A zero of either sign *)
Definition SFzero (x : spec_float) : Prop :=
  match x with S754_zero _ => True | _ => False end.

(** ** Invariants of a running system *)

(** The stored parameters pass the checks of the constructor *)
Definition valid_parameters (σ : machine) : Prop :=
  (m (this σ) <=? 0) = false /\ (b (this σ) <? 0) = false /\ (k (this σ) <? 0) = false.

(** The forcing name names the function in use *)
Definition in_sync {host : Host} (σ : machine) : Prop :=
  Forcing.get Forcing.presets (forcingName (this σ)) = Some (forcingFn (this σ)).

(** The forcing function in use is one of the catalog *)
Definition preset_selected {host : Host} (σ : machine) : Prop :=
  exists f, Forcing.presets !! forcingName (this σ) = Some f
            /\ forcingFn (this σ) = Forcing.Own f.

(** No call selects a member inherited from [Object.prototype] *)
Definition own_names (calls : list operation) : Prop :=
  forall name params, SetForcing name params ∈ calls -> name ∉ Forcing.Object_prototype.

(** The clock reading the calls add up to: every step adds its [dt] *)
Definition elapsed (calls : list operation) : float :=
  foldl (fun t c => match c with Step dt => t + dt | _ => t end) 0 calls.

(** Not the negative zero *)
Definition not_minus_zero (x : float) : Prop := Prim2SF x <> S754_zero true.

(** The three parameters are finite numbers *)
Definition finite_parameters (σ : machine) : Prop :=
  is_finite (m (this σ)) = true /\ is_finite (b (this σ)) = true
  /\ is_finite (k (this σ)) = true.

(** A system at rest: m = 2, b = 0.5, k = 3, y0 = 0, v0 = 0 *)
Definition resting : machine :=
  mkMachine
    {| m := 2.0; b := 0.5; k := 3.0; y0 := 0.0; v0 := 0.0; state := 0%nat;
       forcingName := "none"; forcingFn := Forcing.Own Forcing.none;
       forcingParams := ∅ |}
    [ {| y := 0.0; v := 0.0; t := 0.0 |} ].

(** ** Caller-supplied forcing parameters *)

(** The catalog entry [w] with the caller's parameters [p] in place of
    the defaults they name *)
Definition resolve (w : waveform) (p : gmap string float) : waveform :=
  let supplied key dflt := default dflt (p !! key) in
  match w with
  | WNone => WNone
  | WConstant force => WConstant (supplied "force" force)
  | WSine amplitude frequency =>
      WSine (supplied "amplitude" amplitude) (supplied "frequency" frequency)
  | WCosine amplitude frequency =>
      WCosine (supplied "amplitude" amplitude) (supplied "frequency" frequency)
  | WStep amplitude stepTime =>
      WStep (supplied "amplitude" amplitude) (supplied "stepTime" stepTime)
  | WSquare amplitude frequency =>
      WSquare (supplied "amplitude" amplitude) (supplied "frequency" frequency)
  | WImpulse amplitude impulseTime width =>
      WImpulse (supplied "amplitude" amplitude) (supplied "impulseTime" impulseTime)
               (supplied "width" width)
  end.

(** Two machines that a client cannot tell apart: the same fields but
    for the location of the state object, and the same state object. *)
Definition same_system (σ1 σ2 : machine) : Prop :=
  current σ1 = current σ2 /\ set_state 0 (this σ1) = set_state 0 (this σ2).

(** ** Math.min and Math.max *)

Definition is_NaN (x : float) : bool :=
  match Prim2SF x with S754_nan => true | _ => false end.
Definition is_plus_zero (x : float) : bool :=
  match Prim2SF x with S754_zero false => true | _ => false end.
Definition is_minus_zero (x : float) : bool :=
  match Prim2SF x with S754_zero true => true | _ => false end.

(** [Math.min(...values)] on numbers, from the running value [lowest]
    (ECMAScript 21.3.2.25): a NaN argument makes the result NaN, -0 is
    below +0. *)
Fixpoint min_from (lowest : float) (coerced : list float) : float :=
  match coerced with
  | [] => lowest
  | number :: rest =>
      if is_NaN number then nan
      else if is_minus_zero number && is_plus_zero lowest then min_from number rest
      else if number <? lowest then min_from number rest
      else min_from lowest rest
  end.
Definition Math_min (values : list float) : float := min_from infinity values.

(** [Math.max(...coerced)] (ECMAScript 21.3.2.24) *)
Fixpoint max_from (highest : float) (coerced : list float) : float :=
  match coerced with
  | [] => highest
  | number :: rest =>
      if is_NaN number then nan
      else if is_plus_zero number && is_minus_zero highest then max_from number rest
      else if highest <? number then max_from number rest
      else max_from highest rest
  end.
Definition Math_max (values : list float) : float := max_from neg_infinity values.

(** ** PhasePortrait.js *)

Module PhasePortrait.

(** A data point [{y, v}] *)
Record Point : Type := mkPoint { y : float; v : float }.

Module Stats.
(** The object [getStats] returns; [None] is a property it does not set *)
Record t : Type := make {
  dataPoints : nat;
  yMin : option float; yMax : option float; yRange : float;
  vMin : option float; vMax : option float; vRange : float }.
End Stats.

(** A call [f(...values)] passes every element of the array as an
    argument. The language puts no bound on the number of arguments; an
    engine does, and past it the call throws a RangeError (with a message
    of the engine's) before [f] runs. [max_arguments] is the bound of the
    engine at the call. *)
Definition spread_call {A : Type} (max_arguments : nat) (f : list float -> A)
    (values : list float) : result A :=
  if decide (length values <= max_arguments)%nat then Ok (f values)
  else Throw "RangeError".

Definition getStats (max_arguments : nat) (data : list Point) : result Stats.t :=
  if decide (length data = 0%nat)
  then Ok (Stats.make 0 None None 0 None None 0)
  else
    let yValues := map y data in
    let vValues := map v data in
    yMin ← spread_call max_arguments Math_min yValues;
    yMax ← spread_call max_arguments Math_max yValues;
    yHigh ← spread_call max_arguments Math_max yValues;
    yLow ← spread_call max_arguments Math_min yValues;
    vMin ← spread_call max_arguments Math_min vValues;
    vMax ← spread_call max_arguments Math_max vValues;
    vHigh ← spread_call max_arguments Math_max vValues;
    vLow ← spread_call max_arguments Math_min vValues;
    Ok (Stats.make (length data)
          (Some yMin) (Some yMax) (yHigh - yLow)
          (Some vMin) (Some vMax) (vHigh - vLow)).

End PhasePortrait.

(** ** SpringAnimator.js *)

Module SpringAnimator.

Module Config.
(** The constructor's configuration object; [None] is an omitted key *)
Record t : Type := make {
  width : option float; height : option float; scale : option float;
  springCoils : option float; massWidth : option float; massHeight : option float;
  springColor : option string; massColor : option string;
  equilibriumColor : option string }.
Definition empty : t := make None None None None None None None None None.
End Config.

(** The fields of [this] *)
Record t : Type := mk {
  width : float; height : float; scale : float;
  springCoils : float; massWidth : float; massHeight : float;
  springColor : string; massColor : string; equilibriumColor : string;
  anchorX : float; anchorY : float; equilibriumY : float }.

(** [new SpringAnimator(config)]; [None] is an omitted argument *)
Definition constructor (config : option Config.t) : t :=
  let config := default Config.empty config in
  let width := default 400 (Config.width config) in
  let height := default 600 (Config.height config) in
  let scale := default 100 (Config.scale config) in
  let springCoils := default 10 (Config.springCoils config) in
  let massWidth := default 60 (Config.massWidth config) in
  let massHeight := default 40 (Config.massHeight config) in
  let springColor := default "#4a90e2" (Config.springColor config) in
  let massColor := default "#e74c3c" (Config.massColor config) in
  let equilibriumColor := default "#95a5a6" (Config.equilibriumColor config) in
  {| width := width; height := height; scale := scale;
     springCoils := springCoils; massWidth := massWidth; massHeight := massHeight;
     springColor := springColor; massColor := massColor;
     equilibriumColor := equilibriumColor;
     (* Fixed anchor point at top of canvas *)
     anchorX := width / 2; anchorY := 50;
     (* Equilibrium position (where spring is at rest) *)
     equilibriumY := height / 2 |}.

Definition physicsToCanvasY (this : t) (y : float) : float :=
  equilibriumY this + y * scale this.

Module Stats.
(** The object [getStats] returns *)
Record t : Type := make {
  massY : float; springLength : float;
  isCompressed : bool; isExtended : bool; isAtEquilibrium : bool }.
End Stats.

Definition getStats (this : t) (state : State) : Stats.t :=
  let y := Integrators.y state in
  let massY := physicsToCanvasY this y in
  let springLength := massY - anchorY this in
  Stats.make massY springLength (y <? 0) (0 <? y) (Math_abs y <? 0.001).

End SpringAnimator.

(** ** Systems and calls for the examples *)

(** A system whose position has become NaN *)
Definition astray : machine :=
  mkMachine
    {| m := 1.0; b := 0.1; k := 1.0; y0 := 1.0; v0 := 0.0; state := 0%nat;
       forcingName := "none"; forcingFn := Forcing.Own Forcing.none;
       forcingParams := ∅ |}
    [ {| y := nan; v := 0.0; t := 0.0 |} ].

(** A session of calls: two of them fail, none selects an inherited name *)
Definition sample_calls : list operation :=
  [Step 0.01; SetParameters (Partial.make (Some 2) (Some (-1)) None);
   SetForcing "sine" (Some sample_overrides); SetForcing "sawtooth" None; Step 0.02].

(** Parameters of an impulse of no width *)
Definition widthless : gmap string float := {[ "amplitude" := 10.0; "width" := 0.0 ]}.

Ltac unfold_method :=
  unfold getState, getParameters, getForcing, reset, getEnergy,
    self, deref, new_object, assign, skip, lift, throw;
  unfold mbind, mret, method_bind, method_ret; cbn.

(** * Verification *)

(** ** Basic facts *)

Lemma lookup_snoc {A} (l : list A) (x : A) : (l ++ [x]) !! length l = Some x.
Proof. by apply list_lookup_middle. Qed.

Lemma lookup_snoc_old {A} (l : list A) (x : A) (i : nat) (o : A) :
  l !! i = Some o -> (l ++ [x]) !! i = Some o.
Proof. intros Hi. by apply lookup_app_l_Some. Qed.

Lemma constructor_default_system : constructor Config.empty [] = Ok default_system.
Proof. reflexivity. Qed.

Lemma getState_copy (σ : machine) (o : State) :
  current σ = Some o ->
  getState σ = (Ok (length (objs σ)), mkMachine (this σ) (objs σ ++ [o])).
Proof. unfold current. intros Hc. unfold_method. by rewrite Hc. Qed.

(** ** The constructor *)

(** What a successful construction builds *)
Lemma constructor_ok (config : Config.t) (heap : list State) (σ : machine) :
  constructor config heap = Ok σ ->
  σ = mkMachine
        (mkSystem (default 1.0 (Config.m config)) (default 0.1 (Config.b config))
           (default 1.0 (Config.k config))
           (default 1.0 (Config.y0 config)) (default 0.0 (Config.v0 config))
           (length heap) "none" (Forcing.Own Forcing.none) ∅)
        (heap ++ [ {| y := default 1.0 (Config.y0 config);
                      v := default 0.0 (Config.v0 config); t := 0 |} ]).
Proof. unfold constructor. repeat case_match; congruence. Qed.

(** C10: every key of the configuration is optional and an omitted key
    takes its default (m = 1.0, b = 0.1, k = 1.0, y0 = 1.0, v0 = 0.0);
    constructing with the empty configuration succeeds, [getParameters]
    then returns [{m: 1.0, b: 0.1, k: 1.0}] and [getState] a state object
    [{y: 1.0, v: 0.0, t: 0}]. *)
Theorem constructor_defaults (heap : list State) :
  (forall config, constructor config heap = constructor (fill config) heap)
  /\ exists σ, constructor Config.empty heap = Ok σ
       /\ fst (getParameters σ) = Ok (Parameters.make 1.0 0.1 1.0)
       /\ exists l σ', getState σ = (Ok l, σ')
            /\ objs σ' !! l = Some {| y := 1.0; v := 0.0; t := 0 |}.
Proof.
  split; [reflexivity|].
  eexists. split; [reflexivity|]. split; [reflexivity|].
  do 2 eexists. split.
  - apply getState_copy. unfold current. cbn. apply lookup_snoc.
  - cbn. apply lookup_snoc.
Qed.

(** C6: the constructor throws exactly when [m <= 0], [b < 0] or [k < 0],
    with the message of the first failing check (mass, then damping, then
    spring constant), so mass 0 and mass -1 throw while damping 0 and spring
    constant 0 are accepted; when it succeeds the state object is
    [(y0, v0, 0)], the parameters are stored and the forcing selection is
    the preset [none] with no parameters. *)
Theorem constructor_validates (config : Config.t) (heap : list State) :
  let m0 := default 1.0 (Config.m config) in
  let b0 := default 0.1 (Config.b config) in
  let k0 := default 1.0 (Config.k config) in
  let y0' := default 1.0 (Config.y0 config) in
  let v0' := default 0.0 (Config.v0 config) in
  ((exists msg, constructor config heap = Throw msg)
     <-> (m0 <=? 0) = true \/ (b0 <? 0) = true \/ (k0 <? 0) = true)
  /\ ((m0 <=? 0) = true -> constructor config heap = Throw "Mass must be positive")
  /\ ((m0 <=? 0) = false -> (b0 <? 0) = true ->
        constructor config heap = Throw "Damping coefficient must be non-negative")
  /\ ((m0 <=? 0) = false -> (b0 <? 0) = false -> (k0 <? 0) = true ->
        constructor config heap = Throw "Spring constant must be non-negative")
  /\ (forall σ, constructor config heap = Ok σ ->
        current σ = Some {| y := y0'; v := v0'; t := 0 |}
        /\ parameters σ = Parameters.make m0 b0 k0
        /\ y0 (this σ) = y0' /\ v0 (this σ) = v0'
        /\ forcingFn (this σ) = Forcing.Own Forcing.none
        /\ fst (getForcing σ) = Ok (Selection.make "none" ∅)
        /\ objs σ = heap ++ [ {| y := y0'; v := v0'; t := 0 |} ])
  /\ (forall b k y0 v0,
        constructor (Config.make (Some 0) b k y0 v0) heap = Throw "Mass must be positive"
        /\ constructor (Config.make (Some (-1)) b k y0 v0) heap = Throw "Mass must be positive")
  /\ (forall y0 v0, exists σ,
        constructor (Config.make (Some 1) (Some 0) (Some 0) y0 v0) heap = Ok σ).
Proof.
  intros m0 b0 k0 y0' v0'.
  split; [|split; [|split; [|split; [|split; [|split]]]]].
  - unfold constructor. fold m0 b0 k0.
    destruct (m0 <=? 0), (b0 <? 0), (k0 <? 0); split;
      first [ by eauto | intros [msg ?]; congruence | intros [?|[?|?]]; congruence ].
  - unfold constructor. fold m0. by intros ->.
  - unfold constructor. fold m0 b0. by intros -> ->.
  - unfold constructor. fold m0 b0 k0. by intros -> -> ->.
  - intros σ Hσ. rewrite (constructor_ok _ _ _ Hσ). unfold current. cbn.
    rewrite lookup_snoc. done.
  - done.
  - intros y1 v1. eexists. reflexivity.
Qed.

(** ** setParameters *)

Lemma setParameters_run (σ : machine) (p : Partial.t) :
  setParameters p σ =
    let s := this σ in
    let m1 := if mass_ok p then default (m s) (Partial.m p) else m s in
    let b1 := if mass_ok p && damping_ok p then default (b s) (Partial.b p) else b s in
    let k1 := if mass_ok p && damping_ok p && spring_ok p
              then default (k s) (Partial.k p) else k s in
    (if negb (mass_ok p) then Throw "Mass must be positive"
     else if negb (damping_ok p) then Throw "Damping coefficient must be non-negative"
     else if negb (spring_ok p) then Throw "Spring constant must be non-negative"
     else Ok tt,
     mkMachine (mkSystem m1 b1 k1 (y0 s) (v0 s) (state s) (forcingName s)
                  (forcingFn s) (forcingParams s))
               (objs σ)).
Proof.
  destruct σ as [[m0 b0 k0 y00 v00 st fname ffn fps] h], p as [pm pb pk].
  unfold setParameters, mass_ok, damping_ok, spring_ok. cbn.
  destruct pm as [x|]; [destruct (x <=? 0)|];
    (destruct pb as [x'|]; [destruct (x' <? 0)|]);
    (destruct pk as [x''|]; [destruct (x'' <? 0)|]); reflexivity.
Qed.

(** C1, as stated, fails: [setParameters({m: 2, b: -1})] on the default
    system throws for the damping, yet the mass has already been replaced
    by 2. *)
Lemma setParameters_not_atomic : ~ setParameters_atomic.
Proof.
  intros Hclaim.
  destruct (Hclaim default_system (Partial.make (Some 2) (Some (-1)) None) eq_refl)
    as (msg & _ & Hsame).
  vm_compute in Hsame. discriminate Hsame.
Qed.

(** C1, amended: [setParameters] checks and assigns the supplied fields one
    after the other, mass, damping, spring constant. When every supplied
    field is valid, exactly the supplied fields are updated. Otherwise the
    call throws for the first invalid field; that field and the later ones
    keep their values, the supplied fields before it have been updated.
    Nothing but the triple changes in either case. *)
Theorem setParameters_sequential (σ : machine) (p : Partial.t) :
  let supplied (o : option float) (old : float) := default old o in
  let outcome := fst (setParameters p σ) in
  let σ' := snd (setParameters p σ) in
  let s := this σ in
  (objs σ' = objs σ /\ state (this σ') = state s
   /\ y0 (this σ') = y0 s /\ v0 (this σ') = v0 s
   /\ selection σ' = selection σ /\ forcingFn (this σ') = forcingFn s)
  /\ (mass_ok p && damping_ok p && spring_ok p = true ->
        outcome = Ok tt
        /\ parameters σ' = Parameters.make (supplied (Partial.m p) (m s))
                             (supplied (Partial.b p) (b s))
                             (supplied (Partial.k p) (k s)))
  /\ (mass_ok p = false ->
        outcome = Throw "Mass must be positive" /\ parameters σ' = parameters σ)
  /\ (mass_ok p = true -> damping_ok p = false ->
        outcome = Throw "Damping coefficient must be non-negative"
        /\ parameters σ' = Parameters.make (supplied (Partial.m p) (m s)) (b s) (k s))
  /\ (mass_ok p = true -> damping_ok p = true -> spring_ok p = false ->
        outcome = Throw "Spring constant must be non-negative"
        /\ parameters σ' = Parameters.make (supplied (Partial.m p) (m s))
                             (supplied (Partial.b p) (b s)) (k s)).
Proof.
  cbv zeta. rewrite setParameters_run. cbn.
  split; [done|].
  destruct (mass_ok p), (damping_ok p), (spring_ok p); cbn;
    repeat split; intros; congruence.
Qed.

(** ** setForcing *)

Section SetForcing.
Context {host : Host}.

Lemma presets_catalog (name : string) :
  name ∈ catalog <-> is_Some (Forcing.presets !! name).
Proof.
  unfold Forcing.presets. rewrite <- elem_of_dom, dom_list_to_map_L.
  unfold catalog. cbn. set_solver.
Qed.

Lemma defaultParams_catalog (name : string) :
  name ∈ catalog <-> is_Some (Forcing.defaultParams !! name).
Proof.
  unfold Forcing.defaultParams. rewrite <- elem_of_dom, dom_list_to_map_L.
  unfold catalog. cbn. set_solver.
Qed.

(** X1: a name outside the catalog and outside [Object.prototype] is
    rejected, and the machine is left as it was. *)
Lemma setForcing_unknown (name : string) (params : option (gmap string float))
    (σ : machine) :
  name ∉ catalog -> name ∉ Forcing.Object_prototype ->
  setForcing name params σ = (Throw ("Unknown forcing function: " +:+ name), σ).
Proof.
  intros Hcat Hproto. unfold setForcing, Forcing.get.
  destruct (Forcing.presets !! name) as [f|] eqn:Hf.
  - exfalso. apply Hcat, presets_catalog. by eexists.
  - by rewrite decide_False.
Qed.

(** X2: a catalog name replaces the selection, whatever it was: the
    preset's function, and its defaults overridden key by key by the
    caller's parameters. *)
Lemma setForcing_catalog (name : string) (params : option (gmap string float))
    (σ : machine) :
  name ∈ catalog ->
  exists f d,
    Forcing.presets !! name = Some f /\ Forcing.defaultParams !! name = Some d
    /\ setForcing name params σ =
         (Ok tt, mkMachine (set_forcing name (Forcing.Own f) ((default ∅ params) ∪ d) (this σ))
                           (objs σ))
    /\ forall key,
         forcingParams (this (snd (setForcing name params σ))) !! key
         = match default ∅ params !! key with
           | Some value => Some value
           | None => d !! key
           end.
Proof.
  intros Hcat.
  destruct (proj1 (presets_catalog name) Hcat) as [f Hf].
  destruct (proj1 (defaultParams_catalog name) Hcat) as [d Hd].
  exists f, d. split; [done|]. split; [done|].
  assert (Hrun : setForcing name params σ =
         (Ok tt, mkMachine (set_forcing name (Forcing.Own f) ((default ∅ params) ∪ d) (this σ))
                           (objs σ))).
  { unfold setForcing, Forcing.get. rewrite Hf, Hd. reflexivity. }
  split; [exact Hrun|].
  intros key. rewrite Hrun. cbn. rewrite lookup_union.
  by destruct (default ∅ params !! key), (d !! key).
Qed.

(** C5 at the failing input: ["toString"] is not a catalog key, yet
    [setForcing("toString", params)] does not throw; the guard
    [!presets[name]] finds the method every object literal inherits, and
    the selection becomes that name with the caller's parameters. *)
Theorem setForcing_inherited_name (params : option (gmap string float)) (σ : machine) :
  ("toString" ∉ catalog)
  /\ setForcing "toString" params σ =
       (Ok tt, mkMachine (set_forcing "toString" (Forcing.Inherited "toString")
                            (default ∅ params) (this σ)) (objs σ))
  /\ selection (snd (setForcing "toString" params σ))
       = Selection.make "toString" (default ∅ params).
Proof.
  assert (Hrun : setForcing "toString" params σ =
       (Ok tt, mkMachine (set_forcing "toString" (Forcing.Inherited "toString")
                            (default ∅ params) (this σ)) (objs σ))).
  { unfold setForcing, Forcing.get.
    replace (Forcing.presets !! "toString") with
      (@None (float -> gmap string float -> float)) by reflexivity.
    replace (Forcing.defaultParams !! "toString") with
      (@None (gmap string float)) by reflexivity.
    rewrite !decide_True by compute_done.
    unfold Forcing.spread, Forcing.spreadable.
    by rewrite (right_id_L ∅ (∪)). }
  split; [|split].
  - compute_done.
  - exact Hrun.
  - by rewrite Hrun.
Qed.
End SetForcing.

(** ** Facts of binary64 arithmetic *)

Lemma float_mul_comm (x y : float) : x * y = y * x.
Proof.
  apply Prim2SF_inj. rewrite !mul_spec.
  destruct (Prim2SF x) as [sx|sx| |sx mx ex], (Prim2SF y) as [sy|sy| |sy my ey];
    cbn; rewrite ?(xorb_comm sx sy); try reflexivity.
  by rewrite (Pos.mul_comm mx my), (Z.add_comm ex ey).
Qed.

(** ** The integrator *)

(** On a derivative function that returns normally, the step is the
    formula. *)
Lemma rk4Step_pure (state : State) (d : State -> Deriv) (dt : float) :
  rk4Step state (fun s => Ok (d s)) dt
  = Ok (rk4_formula (y state) (v state) (t state)
          (fun y v t => d {| y := y; v := v; t := t |}) dt).
Proof.
  destruct state as [y v t].
  unfold rk4Step, rk4_formula, mbind, result_bind. cbn.
  rewrite !(float_mul_comm dt). reflexivity.
Qed.

(** C4: for every state [(y, v, t)], derivative function and [dt],
    [rk4Step] returns the state of the six-stage formula: k1 at the start,
    k2 and k3 at the midpoint from k1 and k2, k4 at the end from k3, the
    combined slope (k1 + 2 k2 + 2 k3 + k4) / 6, and the new state
    [(y + dt * combined.dy, v + dt * combined.dv, t + dt)]. *)
Theorem rk4Step_formula (y v t : float) (deriv : float -> float -> float -> Deriv)
    (dt : float) :
  rk4Step {| y := y; v := v; t := t |}
          (fun s => Ok (deriv (Integrators.y s) (Integrators.v s) (Integrators.t s))) dt
  = Ok (rk4_formula y v t deriv dt).
Proof.
  exact (rk4Step_pure {| y := y; v := v; t := t |}
           (fun s => deriv (Integrators.y s) (Integrators.v s) (Integrators.t s)) dt).
Qed.

(** X4: the grouping of the half step matters in binary64 when halving
    underflows: from [y = 0] with the smallest positive velocity and
    [dt = 2] the source, which halves the slope first, moves to the
    second smallest positive number, while halving [dt] first stays at 0. *)
Lemma half_step_underflow :
  rk4Step {| y := 0; v := 5e-324; t := 0 |}
          (fun s => Ok (oscillator (y s) (v s) (t s))) 2
    = Ok {| y := 1e-323; v := 5e-324; t := 2 |}
  /\ rk4_formula_halved 0 5e-324 0 oscillator 2
     = {| y := 0; v := -5e-324; t := 2 |}.
Proof. split; vm_compute; reflexivity. Qed.

Lemma rk4Step_ext (state : State) (d d' : State -> result Deriv) (dt : float) :
  (forall s, d s = d' s) -> rk4Step state d dt = rk4Step state d' dt.
Proof.
  intros Hd. unfold rk4Step. destruct state as [y v t].
  rewrite Hd. destruct (d' _) as [k1|]; [cbn|done].
  rewrite Hd. destruct (d' _) as [k2|]; [cbn|done].
  rewrite Hd. destruct (d' _) as [k3|]; [cbn|done].
  rewrite Hd. by destruct (d' _) as [k4|].
Qed.

(** ** step *)

Section StepFacts.
Context {host : Host}.

Lemma computeDerivatives_preset (s : MassSpringSystem)
    (f : float -> gmap string float -> float) (st : State) :
  forcingFn s = Forcing.Own f ->
  computeDerivatives s st
  = Ok (derivative s f (Integrators.y st) (Integrators.v st) (Integrators.t st)).
Proof. intros Hf. unfold computeDerivatives. destruct st. by rewrite Hf. Qed.

Lemma step_run (σ : machine) (dt : float) (cur next : State) :
  current σ = Some cur ->
  rk4Step cur (computeDerivatives (this σ)) dt = Ok next ->
  step dt σ = (Ok (S (length (objs σ))),
               mkMachine (set_state (length (objs σ)) (this σ))
                         ((objs σ ++ [next]) ++ [next])).
Proof.
  unfold current. intros Hcur Hnext. unfold step. unfold_method.
  rewrite Hcur.
  change (fun state => computeDerivatives (this σ) state)
    with (computeDerivatives (this σ)).
  rewrite Hnext. cbn. rewrite lookup_snoc.
  cbn [objs this]. by rewrite length_app, Nat.add_1_r.
Qed.

Lemma step_throws (σ : machine) (dt : float) (cur : State) (msg : string) :
  current σ = Some cur ->
  rk4Step cur (computeDerivatives (this σ)) dt = Throw msg ->
  step dt σ = (Throw msg, σ).
Proof.
  unfold current. intros Hcur Hnext. unfold step. unfold_method.
  rewrite Hcur.
  change (fun state => computeDerivatives (this σ) state)
    with (computeDerivatives (this σ)).
  by rewrite Hnext.
Qed.

Lemma step_dangling (σ : machine) (dt : float) :
  current σ = None -> step dt σ = (Throw "dangling reference", σ).
Proof. unfold current. intros Hcur. unfold step. unfold_method. by rewrite Hcur. Qed.

(** Whatever happens, [step] touches only the [state] field and only
    adds objects to the heap. *)
Lemma step_frame (σ : machine) (dt : float) :
  exists l more,
    this (snd (step dt σ)) = set_state l (this σ)
    /\ objs (snd (step dt σ)) = objs σ ++ more
    /\ (wf σ -> wf (snd (step dt σ))).
Proof.
  destruct (current σ) as [cur|] eqn:Hcur.
  - destruct (rk4Step cur (computeDerivatives (this σ)) dt) as [next|msg] eqn:Hnext.
    + rewrite (step_run _ _ _ _ Hcur Hnext). cbn.
      exists (length (objs σ)), [next; next]. split; [done|]. split.
      * by rewrite <- app_assoc.
      * intros _. exists next. unfold current. cbn.
        apply lookup_snoc_old, lookup_snoc.
    + rewrite (step_throws _ _ _ _ Hcur Hnext). cbn.
      exists (state (this σ)), []. split; [by destruct σ as [[] ?]|].
      split; [by rewrite app_nil_r|done].
  - rewrite (step_dangling _ _ Hcur). cbn.
    exists (state (this σ)), []. split; [by destruct σ as [[] ?]|].
    split; [by rewrite app_nil_r|done].
Qed.

(** With a function of the catalog selected, a step succeeds: it stores
    the state of the formula in a new object and returns a copy of it in
    another. *)
Lemma step_preset (σ : machine) (dt : float) (cur : State)
    (f : float -> gmap string float -> float) :
  current σ = Some cur ->
  forcingFn (this σ) = Forcing.Own f ->
  let next := rk4_formula (y cur) (v cur) (t cur) (derivative (this σ) f) dt in
  step dt σ = (Ok (S (length (objs σ))),
               mkMachine (set_state (length (objs σ)) (this σ))
                         ((objs σ ++ [next]) ++ [next])).
Proof.
  intros Hcur Hf next. apply (step_run _ _ _ _ Hcur).
  rewrite (rk4Step_ext cur _ (fun s => Ok (derivative (this σ) f (y s) (v s) (t s)))).
  - apply (rk4Step_pure cur (fun s => derivative (this σ) f (y s) (v s) (t s))).
  - intros s. by apply computeDerivatives_preset.
Qed.

(** C3: with a forcing function [f] of the catalog selected, [step(dt)]
    takes one RK4 step of [f(y, v, t) = (v, (-b v - k y + forcing(t)) / m)]
    from the current state, makes the result the internal state, whose
    time is [t + dt], and returns a fresh copy of it: whatever the caller
    then writes into the returned object, [getState] still yields the
    result. Parameters, initial conditions and forcing are untouched. *)
Theorem step_rk4 (σ : machine) (dt : float) (cur : State)
    (f : float -> gmap string float -> float) :
  current σ = Some cur ->
  forcingFn (this σ) = Forcing.Own f ->
  let next := rk4_formula (y cur) (v cur) (t cur) (derivative (this σ) f) dt in
  exists r σ',
    step dt σ = (Ok r, σ')
    /\ current σ' = Some next
    /\ t next = t cur + dt
    /\ objs σ' !! r = Some next
    /\ r <> state (this σ')
    /\ (forall o : State, exists l σ'',
          getState (mutate r o σ') = (Ok l, σ'') /\ objs σ'' !! l = Some next)
    /\ this σ' = set_state (state (this σ')) (this σ).
Proof.
  intros Hcur Hf next.
  do 2 eexists. split; [exact (step_preset _ dt _ _ Hcur Hf)|].
  fold next. unfold current. cbn.
  split; [apply lookup_snoc_old, lookup_snoc|].
  split; [done|].
  split; [apply list_lookup_middle; rewrite length_app; cbn; lia|].
  split; [lia|].
  split; [|done].
  intros o. do 2 eexists. split.
  - apply getState_copy. unfold current, mutate. cbn.
    rewrite list_lookup_insert_ne by lia.
    apply lookup_snoc_old, lookup_snoc.
  - cbn. apply lookup_snoc.
Qed.
End StepFacts.

(** ** reset *)

Lemma reset_run (σ : machine) :
  reset σ = (Ok tt,
             mkMachine (set_state (length (objs σ)) (this σ))
                       (objs σ ++ [ {| y := y0 (this σ); v := v0 (this σ); t := 0 |} ])).
Proof. reflexivity. Qed.

Section ResetFacts.
Context {host : Host}.

Lemma setForcing_frame (name : string) (params : option (gmap string float))
    (σ : machine) :
  let σ' := snd (setForcing name params σ) in
  y0 (this σ') = y0 (this σ) /\ v0 (this σ') = v0 (this σ)
  /\ state (this σ') = state (this σ) /\ objs σ' = objs σ
  /\ parameters σ' = parameters σ.
Proof.
  unfold setForcing. destruct (Forcing.get Forcing.presets name); done.
Qed.

(** The initial conditions captured at construction never change. *)
Lemma perform_initial (c : operation) (σ : machine) :
  y0 (this (perform c σ)) = y0 (this σ) /\ v0 (this (perform c σ)) = v0 (this σ).
Proof.
  destruct c as [dt|p|name params]; cbn.
  - destruct (step_frame σ dt) as (l & more & -> & _). done.
  - rewrite setParameters_run. done.
  - pose proof (setForcing_frame name params σ) as Hf. cbn in Hf. tauto.
Qed.

Lemma run_initial (calls : list operation) (σ : machine) :
  y0 (this (run calls σ)) = y0 (this σ) /\ v0 (this (run calls σ)) = v0 (this σ).
Proof.
  revert σ. induction calls as [|c calls IH]; intros σ; [done|].
  change (run (c :: calls) σ) with (run calls (perform c σ)).
  destruct (IH (perform c σ)) as [-> ->]. apply perform_initial.
Qed.

(** C7: after construction and any sequence of [step], [setParameters]
    and [setForcing] calls, [reset()] makes the state exactly
    [(y0, v0, 0)] with the initial conditions of the construction, and
    changes nothing else: parameters, forcing selection and every
    existing object are as before the call. *)
Theorem reset_restores (config : Config.t) (heap : list State) (σ0 : machine)
    (calls : list operation) :
  constructor config heap = Ok σ0 ->
  let σ := run calls σ0 in
  exists σ',
    reset σ = (Ok tt, σ')
    /\ current σ' = Some {| y := default 1.0 (Config.y0 config);
                            v := default 0.0 (Config.v0 config);
                            t := 0 |}
    /\ parameters σ' = parameters σ
    /\ selection σ' = selection σ
    /\ forcingFn (this σ') = forcingFn (this σ)
    /\ y0 (this σ') = y0 (this σ) /\ v0 (this σ') = v0 (this σ)
    /\ (forall l o, objs σ !! l = Some o -> objs σ' !! l = Some o).
Proof.
  intros Hnew σ.
  pose proof (constructor_ok _ _ _ Hnew) as Hσ0.
  assert (Hy0 : y0 (this σ0) = default 1.0 (Config.y0 config)) by (by rewrite Hσ0).
  assert (Hv0 : v0 (this σ0) = default 0.0 (Config.v0 config)) by (by rewrite Hσ0).
  destruct (run_initial calls σ0) as [Hy Hv]. fold σ in Hy, Hv.
  eexists. split; [apply reset_run|].
  unfold current. cbn. rewrite lookup_snoc, Hy, Hv, Hy0, Hv0.
  repeat split; try done.
  intros l o. apply lookup_snoc_old.
Qed.
End ResetFacts.

(** ** The remainder is exact *)

Lemma digits2_pos_size (p : positive) : digits2_pos p = Pos.size p.
Proof. induction p; cbn; by f_equal. Qed.

Lemma digits2_pos_log2 (p : positive) :
  Z.pos (digits2_pos p) = (Z.log2 (Z.pos p) + 1)%Z.
Proof.
  rewrite digits2_pos_size. destruct p; cbn [Z.log2 Pos.size]; lia.
Qed.

Lemma iter_xO (m d : positive) : Z.pos (Pos.iter xO m d) = (Z.pos m * 2 ^ Z.pos d)%Z.
Proof.
  induction d as [|d IH] using Pos.peano_ind.
  - cbn. lia.
  - rewrite Pos.iter_succ, Pos2Z.inj_succ, Z.pow_succ_r by lia.
    rewrite Pos2Z.inj_xO, IH. lia.
Qed.

Lemma digits2_pos_le (p q : positive) :
  (p <= q)%positive -> (Z.pos (digits2_pos p) <= Z.pos (digits2_pos q))%Z.
Proof.
  intros Hpq. rewrite !digits2_pos_log2.
  apply Z.add_le_mono_r, Z.log2_le_mono. lia.
Qed.

(** A mantissa that is canonical for its exponent is not rounded. *)
Lemma binary_round_aux_canonical (s : bool) (m : positive) (e : Z) :
  SpecFloat.bounded prec emax m e = true ->
  binary_round_aux prec emax s (Z.pos m) e loc_Exact = S754_finite s m e.
Proof.
  unfold SpecFloat.bounded, canonical_mantissa. intros [Hc He]%andb_prop.
  apply Z.eqb_eq in Hc.
  unfold binary_round_aux, shr_fexp. cbn [Zdigits2 shr_record_of_loc].
  rewrite Hc, Z.sub_diag. cbn [shr shr_m loc_of_shr_record round_nearest_even Zdigits2].
  rewrite Hc, Z.sub_diag. cbn [shr shr_m shr_record_of_loc]. by rewrite He.
Qed.

(** An integer multiple of [2 ^ e] with no more digits than the
    precision allows is a number: [binary_round] only aligns it. *)
Lemma binary_round_exact (s : bool) (m : positive) (e : Z) :
  (fexp prec emax (Z.pos (digits2_pos m) + e) <= e)%Z -> (e <= emax - prec)%Z ->
  exists m' e',
    binary_round prec emax s m e = S754_finite s m' e'
    /\ SpecFloat.bounded prec emax m' e' = true
    /\ (e' <= e)%Z /\ (Z.pos m' = Z.pos m * 2 ^ (e - e'))%Z.
Proof.
  intros Hf He. unfold binary_round, shl_align.
  set (e' := fexp prec emax (Z.pos (digits2_pos m) + e)) in *.
  destruct (e' - e)%Z as [|d|d] eqn:Hd; [|lia|].
  - assert (e' = e) as Heq by lia.
    assert (Hb : SpecFloat.bounded prec emax m e = true).
    { unfold SpecFloat.bounded, canonical_mantissa. fold e'. rewrite Heq, Z.eqb_refl. cbn. lia. }
    exists m, e. rewrite (binary_round_aux_canonical s m e Hb).
    rewrite Z.sub_diag. repeat split; [done|lia|cbn; lia].
  - assert (Hb : SpecFloat.bounded prec emax (Pos.iter xO m d) e' = true).
    { unfold SpecFloat.bounded, canonical_mantissa.
      rewrite digits2_pos_log2, iter_xO, Z.log2_mul_pow2 by lia.
      replace (Z.pos d + Z.log2 (Z.pos m) + 1 + e')%Z
        with (Z.pos (digits2_pos m) + e)%Z by (rewrite digits2_pos_log2; lia).
      fold e'. rewrite Z.eqb_refl. cbn. lia. }
    exists (Pos.iter xO m d), e'. rewrite (binary_round_aux_canonical s _ e' Hb).
    repeat split; [done|lia|].
    rewrite iter_xO. f_equal. f_equal. lia.
Qed.

(** What a number tells about its mantissa and exponent *)
Lemma finite_bounds (x : float) (s : bool) (m : positive) (e : Z) :
  Prim2SF x = S754_finite s m e ->
  (Z.pos (digits2_pos m) <= prec)%Z /\ (SpecFloat.emin prec emax <= e)%Z /\ (e <= emax - prec)%Z.
Proof.
  intros Hx. pose proof (Prim2SF_valid x) as Hv. rewrite Hx in Hv.
  cbn in Hv. unfold SpecFloat.bounded, canonical_mantissa, fexp in Hv.
  apply andb_prop in Hv as [Hc He]. apply Z.eqb_eq in Hc. lia.
Qed.

(** The remainder of two numbers is a number: zero or finite, with the
    sign of the dividend, and no rounding takes place. *)
Lemma js_rem_finite (n d : float) (sn sd : bool) (mn md : positive) (en ed : Z) :
  Prim2SF n = S754_finite sn mn en -> Prim2SF d = S754_finite sd md ed ->
  let e := Z.min en ed in
  let r := Z.rem (Z.pos mn * 2 ^ (en - e)) (Z.pos md * 2 ^ (ed - e)) in
  (r = 0%Z /\ Prim2SF (n %% d) = S754_zero sn)
  \/ (exists m' e', Prim2SF (n %% d) = S754_finite sn m' e'
        /\ (e' <= e)%Z /\ (Z.pos m' = r * 2 ^ (e - e'))%Z).
Proof.
  intros Hn Hd e r.
  destruct (finite_bounds n sn mn en Hn) as (Hdn & Hen & Hen').
  destruct (finite_bounds d sd md ed Hd) as (Hdd & Hed & Hed').
  unfold js_rem. rewrite Hn, Hd. cbv zeta. fold e. fold r.
  set (a := (Z.pos mn * 2 ^ (en - e))%Z) in *.
  set (b := (Z.pos md * 2 ^ (ed - e))%Z) in *.
  assert (Ha : (0 < a)%Z) by (apply Z.mul_pos_pos; [lia|apply Z.pow_pos_nonneg; lia]).
  assert (Hb : (0 < b)%Z) by (apply Z.mul_pos_pos; [lia|apply Z.pow_pos_nonneg; lia]).
  assert (Hr : (0 <= r < b)%Z) by (apply Z.rem_bound_pos; lia).
  assert (Hra : (r <= a)%Z) by (apply Z.rem_le; lia).
  destruct (r =? 0)%Z eqn:Hr0.
  - left. apply Z.eqb_eq in Hr0. split; [done|]. by destruct sn.
  - right. apply Z.eqb_neq in Hr0.
    destruct r as [|rp|rp] eqn:Hrp; [done| |lia].
    assert (Hdr : (Z.pos (digits2_pos rp) <= prec)%Z).
    { destruct (Z.min_spec en ed) as [[_ He]|[_ He]]; fold e in He.
      - assert (a = Z.pos mn) as Haa
          by (unfold a; rewrite He, Z.sub_diag; lia).
        etrans; [apply (digits2_pos_le rp mn); lia|done].
      - assert (b = Z.pos md) as Hbb
          by (unfold b; rewrite He, Z.sub_diag; lia).
        etrans; [apply (digits2_pos_le rp md); lia|done]. }
    assert (Hnorm : binary_normalize prec emax (if sn then (- Z.pos rp)%Z else Z.pos rp)
                      e false = binary_round prec emax sn rp e) by (by destruct sn).
    rewrite Hnorm.
    destruct (binary_round_exact sn rp e) as (m' & e' & Hrnd & Hbnd & He' & Hm').
    { unfold fexp. lia. }
    { lia. }
    exists m', e'. rewrite Hrnd, Prim2SF_SF2Prim by done. done.
Qed.

(** Rounding a mantissa that is not negative gives zero, a number or an
    infinity of the sign it is given, never NaN. *)
Lemma shr_1_nonneg (mrs : shr_record) : (0 <= shr_m mrs)%Z -> (0 <= shr_m (shr_1 mrs))%Z.
Proof. destruct mrs as [[|[p|p|]|p] r s]; cbn; lia. Qed.

Lemma iter_shr_1_nonneg (p : positive) (mrs : shr_record) :
  (0 <= shr_m mrs)%Z -> (0 <= shr_m (SpecFloat.iter_pos shr_1 p mrs))%Z.
Proof.
  revert mrs. induction p as [p IH|p IH|]; intros mrs Hm; cbn.
  - by apply IH, IH, shr_1_nonneg.
  - by apply IH, IH.
  - by apply shr_1_nonneg.
Qed.

Lemma shr_fexp_nonneg (m e : Z) (l : location) :
  (0 <= m)%Z -> (0 <= shr_m (fst (shr_fexp prec emax m e l)))%Z.
Proof.
  intros Hm. unfold shr_fexp, shr.
  assert (H0 : (0 <= shr_m (shr_record_of_loc m l))%Z) by (by destruct l as [|[]]).
  destruct (fexp prec emax (Zdigits2 m + e) - e)%Z; cbn [fst]; try done.
  by apply iter_shr_1_nonneg.
Qed.

Lemma round_nearest_even_nonneg (m : Z) (l : location) :
  (0 <= m)%Z -> (0 <= round_nearest_even m l)%Z.
Proof. intros Hm. destruct l as [|[]]; cbn; try destruct (Z.even m); lia. Qed.

Lemma binary_round_aux_signed (s : bool) (m e : Z) (l : location) :
  (0 <= m)%Z ->
  match binary_round_aux prec emax s m e l with
  | S754_zero s' | S754_infinity s' | S754_finite s' _ _ => s' = s
  | S754_nan => False
  end.
Proof.
  intros Hm. unfold binary_round_aux.
  pose proof (shr_fexp_nonneg m e l Hm) as H1.
  destruct (shr_fexp prec emax m e l) as [mrs' e']. cbn [fst] in H1.
  pose proof (shr_fexp_nonneg _ e' loc_Exact
                (round_nearest_even_nonneg _ (loc_of_shr_record mrs') H1)) as H2.
  destruct (shr_fexp prec emax _ e' loc_Exact) as [mrs'' e'']. cbn [fst] in H2.
  destruct (shr_m mrs''); [done| |lia].
  by destruct (e'' <=? emax - prec)%Z.
Qed.

Lemma SFdiv_minus (x y : spec_float) :
  match x with S754_zero true | S754_finite true _ _ => True | _ => False end ->
  SFpositive y -> SFminus (SFdiv prec emax x y).
Proof.
  destruct x as [[]|[]| |[] mx ex]; try done; intros _;
    destruct y as [[]|[]| |[] my ey]; try done; intros _.
  unfold SFdiv. cbn [xorb].
  destruct (SFdiv_core_binary prec emax (Z.pos mx) ex (Z.pos my) ey)
    as [[mz ez] lz] eqn:Hdiv.
  assert (Hmz : (0 <= mz)%Z).
  { revert Hdiv. unfold SFdiv_core_binary.
    set (m' := match _ with Z0 => Z.pos mx | Z.pos _ => _ | Z.neg _ => 0%Z end).
    assert (Hm' : (0 <= m')%Z).
    { subst m'. destruct (_ - _ - _)%Z; try lia. apply Z.shiftl_nonneg. lia. }
    pose proof (Z.div_pos m' (Z.pos my) Hm' eq_refl) as Hq. unfold Z.div in Hq.
    destruct (Z.div_eucl m' (Z.pos my)) as [q r]. by intros [= <- _ _]. }
  pose proof (binary_round_aux_signed true mz ez lz Hmz) as Hs.
  by destruct (binary_round_aux prec emax true mz ez lz) as [[]|[]| |[] ? ?].
Qed.

Lemma SFminus_below_half (x : spec_float) : SFminus x -> SFltb x (Prim2SF 0.5) = true.
Proof. by destruct x as [[]|[]| |[] ? ?]. Qed.

(** Before time zero the phase of the square wave is in its first half:
    the remainder has the sign of the time, so the phase is not positive. *)
Lemma square_phase_before_zero (t period : float) :
  (t <? 0) = true -> is_finite t = true -> (0 <? period) = true ->
  ((t %% period) / period <? 0.5) = true.
Proof.
  unfold is_finite. rewrite !ltb_spec, div_spec.
  change (Prim2SF 0) with (S754_zero false).
  intros Ht Hfin Hp. apply SFminus_below_half.
  destruct (Prim2SF t) as [[]|[]| |[] mt et] eqn:HPt; try done.
  destruct (Prim2SF period) as [[]|[]| |[] mp ep] eqn:HPp; try done.
  - (* an infinite period: the remainder is the time *)
    assert (Hrem : t %% period = t) by (unfold js_rem; by rewrite HPt, HPp).
    by rewrite Hrem, HPt.
  - destruct (js_rem_finite t period true false mt mp et ep HPt HPp)
      as [[_ ->]|(m' & e' & -> & _)]; by apply SFdiv_minus.
Qed.


(** Of a time that is not finite the remainder is NaN. *)
Lemma rem_not_finite (t period : float) : is_finite t = false -> t %% period = nan.
Proof.
  unfold is_finite, js_rem.
  destruct (Prim2SF t) as [[]|[]| |[] mt et]; try done; intros _;
    by destruct (Prim2SF period) as [[]|[]| |[] mp ep].
Qed.

(** ** The forcing catalog *)


Section CatalogFacts.
Context {host : Host}.

End CatalogFacts.

(** ** Comparisons and signs in binary64 *)

Lemma ltb_zero_positive (x : float) : (0 <? x) = true <-> SFpositive (Prim2SF x).
Proof.
  rewrite ltb_spec. change (Prim2SF 0) with (S754_zero false).
  destruct (Prim2SF x) as [s|s| |s mx ex]; try destruct s; cbn; intuition congruence.
Qed.

Lemma SFltb_asym (x y : spec_float) : SFltb x y = true -> SFltb y x = false.
Proof.
  unfold SFltb.
  destruct x as [sx|sx| |sx mx ex], y as [sy|sy| |sy my ey]; cbn;
    try destruct sx; try destruct sy; try done.
  all: pose proof (Z.compare_antisym ex ey) as HZ;
       pose proof (Pos.compare_cont_antisym mx my Eq) as HP; cbn in HP.
  all: destruct (ex ?= ey)%Z, (ey ?= ex)%Z; cbn in *; try done.
  all: by destruct (Pos.compare_cont Eq mx my), (Pos.compare_cont Eq my mx).
Qed.

Lemma SFleb_not_ltb (x y : spec_float) : SFleb x y = true -> SFltb y x = false.
Proof.
  unfold SFleb, SFltb.
  destruct x as [sx|sx| |sx mx ex], y as [sy|sy| |sy my ey]; cbn;
    try destruct sx; try destruct sy; try done.
  all: pose proof (Z.compare_antisym ex ey) as HZ;
       pose proof (Pos.compare_cont_antisym mx my Eq) as HP; cbn in HP.
  all: destruct (ex ?= ey)%Z, (ey ?= ex)%Z; cbn in *; try done.
  all: by destruct (Pos.compare_cont Eq mx my), (Pos.compare_cont Eq my mx).
Qed.

(** Above a positive number: positive, and equal to its absolute value *)
Lemma SFltb_positive (x y : spec_float) :
  SFpositive x -> SFltb x y = true -> SFpositive y /\ SFabs y = y.
Proof.
  unfold SFltb.
  destruct x as [sx|sx| |sx mx ex], y as [sy|sy| |sy my ey];
    try destruct sx; try destruct sy; cbn; done.
Qed.

Lemma SFleb_positive (x y : spec_float) :
  SFpositive x -> SFleb x y = true -> SFpositive y.
Proof.
  unfold SFleb.
  destruct x as [sx|sx| |sx mx ex], y as [sy|sy| |sy my ey];
    try destruct sx; try destruct sy; cbn; done.
Qed.

(** Below the opposite of a positive number: not positive, and the
    absolute value is above that number *)
Lemma SFltb_negative (x y : spec_float) :
  SFpositive y -> SFltb x (SFopp y) = true ->
  ~ SFpositive x /\ SFltb (SFabs x) y = false.
Proof.
  unfold SFltb.
  destruct y as [sy|sy| |sy my ey], x as [sx|sx| |sx mx ex];
    try destruct sy; try destruct sx; cbn; try done; try (intros _; tauto).
  destruct (ex ?= ey)%Z; cbn; try (intros; split; [tauto|congruence]).
  destruct (Pos.compare_cont Eq mx my); cbn; intros; split; first [tauto|congruence].
Qed.

(** Rounding keeps the sign it is given. *)
Lemma binary_round_aux_sign (sx : bool) (mx ex : Z) (lx : location) :
  match binary_round_aux prec emax sx mx ex lx with
  | S754_zero s | S754_infinity s | S754_finite s _ _ => s = sx
  | S754_nan => True
  end.
Proof.
  unfold binary_round_aux.
  destruct (shr_fexp prec emax mx ex lx) as [mrs' e'].
  destruct (shr_fexp prec emax _ e' loc_Exact) as [mrs'' e''].
  destruct (shr_m mrs''); [done| |done].
  by destruct (e'' <=? emax - prec)%Z.
Qed.

Lemma double_positive (x : float) :
  SFpositive (Prim2SF (2 * x)) -> SFpositive (Prim2SF x).
Proof.
  rewrite mul_spec. unfold SF64mul, SFmul.
  change (Prim2SF 2) with (S754_finite false 4503599627370496 (-51)).
  destruct (Prim2SF x) as [s|s| |s mx ex]; cbn [xorb]; try done.
  pose proof (binary_round_aux_sign s (Z.pos (4503599627370496 * mx)) (-51 + ex) loc_Exact)
    as Hsign.
  destruct (binary_round_aux _ _ _ _ _ _) as [s'|s'| |s' m' e']; cbn; try done;
    subst s'; by destruct s.
Qed.

Lemma zero_div_positive (x : float) : SFpositive (Prim2SF x) -> 0 / x = 0.
Proof.
  intros Hx. apply Prim2SF_inj. rewrite div_spec. unfold SF64div, SFdiv.
  change (Prim2SF 0) with (S754_zero false).
  by destruct (Prim2SF x) as [s|s| |s mx ex]; try destruct s.
Qed.

Lemma positive_div_zero (x : float) : SFpositive (Prim2SF x) -> x / 0 = infinity.
Proof.
  intros Hx. apply Prim2SF_inj. rewrite div_spec. unfold SF64div, SFdiv.
  change (Prim2SF 0) with (S754_zero false).
  change (Prim2SF infinity) with (S754_infinity false).
  by destruct (Prim2SF x) as [s|s| |s mx ex]; try destruct s.
Qed.

(** ** getSystemProperties *)

Lemma constructor_free_particle :
  constructor (Config.make (Some 1.0) (Some 0.0) (Some 0.0) (Some 0.0) (Some 1.0)) []
  = Ok free_particle.
Proof. reflexivity. Qed.

(** C2, as stated, fails: the undamped free particle (m = 1, b = 0, k = 0)
    has zeta = NaN, regime 'critical' and Q = NaN. *)
Lemma zero_damping_free_particle : ~ zero_damping_claim.
Proof.
  intros Hclaim.
  destruct (Hclaim free_particle
              (Properties.make 0 0 infinity nan "critical" 0 0 nan)
              eq_refl eq_refl eq_refl eq_refl) as (Hzeta & _).
  vm_compute in Hzeta. discriminate Hzeta.
Qed.

(** C2, amended: [getSystemProperties] returns omega0 = sqrt(k/m),
    zeta = b / (2 sqrt(m k)), Q = sqrt(m k) / b and the regime of the
    discriminant d = b b - 4 m k: 'critical' when |d| < 1e-10,
    'overdamped' when d > 1e-10, 'underdamped' when d < -1e-10. When the
    damping is (positive) zero, zeta = 0 and Q = +infinity provided
    2 sqrt(m k) > 0, and the regime is 'underdamped' provided
    4 m k >= 1e-10. When the damping and the spring constant are both
    (positive) zero and 4 m is finite, zeta and Q are NaN and the regime
    is 'critical'. *)
Theorem getSystemProperties_formulas (σ : machine) :
  let m := m (this σ) in
  let b := b (this σ) in
  let k := k (this σ) in
  let d := b * b - 4 * m * k in
  exists p,
    getSystemProperties σ = (Ok p, σ)
    /\ Properties.omega0 p = Math_sqrt (k / m)
    /\ Properties.zeta p = b / (2 * Math_sqrt (m * k))
    /\ Properties.Q p = Math_sqrt (m * k) / b
    /\ ((Math_abs d <? tolerance) = true -> Properties.regime p = "critical")
    /\ ((tolerance <? d) = true -> Properties.regime p = "overdamped")
    /\ ((d <? - tolerance) = true -> Properties.regime p = "underdamped")
    /\ (b = 0 -> (0 <? 2 * Math_sqrt (m * k)) = true ->
          Properties.zeta p = 0 /\ Properties.Q p = infinity)
    /\ (b = 0 -> (tolerance <=? 4 * m * k) = true ->
          Properties.regime p = "underdamped")
    /\ (b = 0 -> k = 0 -> is_finite (4 * m) = true ->
          Properties.zeta p = nan /\ Properties.Q p = nan
          /\ Properties.regime p = "critical").
Proof.
  intros m0 b0 k0 d.
  assert (Htol : SFpositive (Prim2SF tolerance)) by (vm_compute; exact I).
  eexists. split; [unfold getSystemProperties; unfold_method; reflexivity|].
  cbn [Properties.omega0 Properties.zeta Properties.Q Properties.regime].
  fold m0 b0 k0. fold d. fold tolerance.
  split; [done|]. split; [done|]. split; [done|].
  unfold Math_abs, Math_sqrt.
  split; [by intros ->|]. split; [|split; [|split; [|split]]].
  - (* d above the tolerance *)
    intros Hd. rewrite ltb_spec in Hd.
    destruct (SFltb_positive _ _ Htol Hd) as [Hpos Habs].
    assert (Hlt : (abs d <? tolerance) = false).
    { rewrite ltb_spec, abs_spec, Habs. by apply SFltb_asym. }
    rewrite Hlt. by rewrite (proj2 (ltb_zero_positive d) Hpos).
  - (* d below the opposite of the tolerance *)
    intros Hd. rewrite ltb_spec, opp_spec in Hd.
    destruct (SFltb_negative _ _ Htol Hd) as [Hneg Habs].
    assert (Hlt : (abs d <? tolerance) = false) by (by rewrite ltb_spec, abs_spec).
    rewrite Hlt.
    destruct (0 <? d) eqn:Hd0; [|done].
    by apply ltb_zero_positive in Hd0.
  - (* zeta and Q without damping *)
    intros -> Hs. apply ltb_zero_positive in Hs.
    split; [by apply zero_div_positive|].
    by apply positive_div_zero, double_positive.
  - (* the regime without damping *)
    intros Hb Hk. subst d. rewrite Hb.
    change (0 * 0) with 0.
    set (P := 4 * m0 * k0) in *.
    rewrite leb_spec in Hk.
    pose proof (SFleb_positive _ _ Htol Hk) as HP.
    pose proof (SFleb_not_ltb _ _ Hk) as HPt.
    assert (Hlt : (abs (0 - P) <? tolerance) = false).
    { rewrite ltb_spec, abs_spec, sub_spec.
      change (Prim2SF 0) with (S754_zero false). unfold SF64sub, SFsub.
      destruct (Prim2SF P) as [s|s| |s mp ep]; try destruct s; done. }
    assert (Hpos : (0 <? 0 - P) = false).
    { rewrite ltb_spec, sub_spec.
      change (Prim2SF 0) with (S754_zero false). unfold SF64sub, SFsub.
      destruct (Prim2SF P) as [s|s| |s mp ep]; try destruct s; done. }
    by rewrite Hlt, Hpos.
  - (* the free particle *)
    intros Hb Hk Hfin. subst d. rewrite Hb, Hk.
    assert (Hm : exists s, Prim2SF (m0 * 0) = S754_zero s).
    { revert Hfin. unfold is_finite. rewrite !mul_spec.
      change (Prim2SF 0) with (S754_zero false).
      change (Prim2SF 4) with (S754_finite false 4503599627370496 (-50)).
      destruct (Prim2SF m0) as [s|s| |s mm em]; try done; intros _; by eexists. }
    assert (H4 : exists s, Prim2SF (4 * m0 * 0) = S754_zero s).
    { revert Hfin. unfold is_finite. rewrite (mul_spec (4 * m0)).
      change (Prim2SF 0) with (S754_zero false).
      destruct (Prim2SF (4 * m0)) as [s|s| |s mm em]; try done; intros _; by eexists. }
    destruct Hm as [s Hm]. destruct H4 as [s' H4].
    assert (Hroot : Prim2SF (PrimFloat.sqrt (m0 * 0)) = S754_zero s)
      by (by rewrite sqrt_spec, Hm).
    assert (Hzeta : 0 / (2 * PrimFloat.sqrt (m0 * 0)) = nan).
    { apply Prim2SF_inj. rewrite div_spec, mul_spec, Hroot. by destruct s. }
    assert (HQ : PrimFloat.sqrt (m0 * 0) / 0 = nan).
    { apply Prim2SF_inj. rewrite div_spec, Hroot. by destruct s. }
    assert (Hlt : (abs (0 * 0 - 4 * m0 * 0) <? tolerance) = true).
    { rewrite ltb_spec, abs_spec, sub_spec, H4. by destruct s'. }
    by rewrite Hzeta, HQ, Hlt.
Qed.

(** ** Accuracy of simple harmonic motion *)

Section RealFacts.
Local Open Scope R_scope.
Local Opaque halvings.

Lemma scale_pos : 0 < IZR scale.
Proof. apply IZR_lt. reflexivity. Qed.

Lemma floor_div_le (a d : Z) : (0 < d)%Z -> IZR (floor_div a d) <= IZR a / IZR d.
Proof.
  intros Hd. unfold floor_div.
  assert (Hd' : 0 < IZR d) by (by apply IZR_lt).
  apply Rmult_le_reg_r with (IZR d); [exact Hd'|].
  unfold Rdiv. rewrite Rmult_assoc, Rinv_l, Rmult_1_r by lra.
  rewrite <- mult_IZR. apply IZR_le.
  rewrite Z.mul_comm. by apply Z.mul_div_le.
Qed.

Lemma ceil_div_ge (a d : Z) : (0 < d)%Z -> IZR a / IZR d <= IZR (ceil_div a d).
Proof.
  intros Hd. unfold ceil_div.
  pose proof (floor_div_le (- a) d Hd) as Hf. unfold floor_div in Hf.
  rewrite !opp_IZR in *. unfold Rdiv in *. lra.
Qed.

Lemma floor_shift_le (a : Z) : IZR (floor_shift a) <= IZR a / IZR scale.
Proof.
  unfold floor_shift. rewrite Z.shiftr_div_pow2 by discriminate.
  by apply floor_div_le.
Qed.

Lemma ceil_shift_ge (a : Z) : IZR a / IZR scale <= IZR (ceil_shift a).
Proof.
  unfold ceil_shift. rewrite Z.shiftr_div_pow2 by discriminate.
  by apply ceil_div_ge.
Qed.

Lemma cos_small_sound (A : Z) (a : R) :
  a * IZR scale = IZR A -> -2 <= a <= 2 -> encloses (cos_small A) (cos a).
Proof.
  intros HA Ha.
  destruct (pre_cos_bound a 0) as [Hlo Hhi]; [lra|lra|].
  unfold cos_approx, cos_term in Hlo, Hhi. cbn in Hlo, Hhi.
  pose proof scale_pos as HU.
  unfold encloses, cos_small. cbn [fst snd].
  set (u_lo := floor_shift (A * A)). set (u_hi := ceil_shift (A * A)).
  pose proof (floor_shift_le (A * A)) as Hu1. fold u_lo in Hu1.
  pose proof (ceil_shift_ge (A * A)) as Hu2. fold u_hi in Hu2.
  pose proof (ceil_div_ge u_hi 2 ltac:(reflexivity)) as H1.
  pose proof (floor_div_le u_lo 2 ltac:(reflexivity)) as H2.
  pose proof (ceil_shift_ge (u_hi * u_hi)) as H3.
  pose proof (ceil_div_ge (ceil_shift (u_hi * u_hi)) 24 ltac:(reflexivity)) as H4.
  rewrite mult_IZR in Hu1, Hu2, H3. rewrite <- HA in Hu1, Hu2.
  rewrite !plus_IZR, !minus_IZR.
  set (U := IZR scale) in *.
  set (L := IZR u_lo) in *. set (H := IZR u_hi) in *.
  set (C1 := IZR (ceil_div u_hi 2)) in *. set (F1 := IZR (floor_div u_lo 2)) in *.
  set (C3 := IZR (ceil_shift (u_hi * u_hi))) in *.
  set (C4 := IZR (ceil_div (ceil_shift (u_hi * u_hi)) 24)) in *.
  assert (E1 : a * U * (a * U) / U = a * a * U) by (field; lra).
  rewrite E1 in Hu1, Hu2.
  assert (Hpos : 0 <= a * a * U).
  { apply Rmult_le_pos; [apply Rle_0_sqr|lra]. }
  assert (Hsq : (a * a * U) * (a * a * U) <= H * H).
  { apply Rmult_le_compat; lra. }
  assert (E2 : a * a * a * a / 24 * U = (a * a * U) * (a * a * U) / U / 24)
    by (field; lra).
  assert (Hq : (a * a * U) * (a * a * U) / U <= H * H / U).
  { unfold Rdiv. apply Rmult_le_compat_r; [|exact Hsq].
    apply Rlt_le, Rinv_0_lt_compat, HU. }
  split.
  - apply Rle_trans with ((1 - a * a / 2) * U); [lra|].
    apply Rmult_le_compat_r; lra.
  - apply Rle_trans with ((1 - a * a / 2 + a * a * a * a / 24) * U).
    + apply Rmult_le_compat_r; lra.
    + lra.
Qed.

Lemma double_angle_sound (I : Z * Z) (c : R) :
  encloses I c -> encloses (double_angle I) (2 * c * c - 1).
Proof.
  destruct I as [lo hi]. unfold encloses, double_angle. cbv zeta. cbn [fst snd].
  pose proof scale_pos as HU. set (U := IZR scale) in *.
  set (X := c * U). intros [Hlo Hhi].
  set (sqlo := if (0 <=? lo)%Z then _ else _).
  set (sqhi := Z.max _ _).
  assert (Hsqlo : IZR sqlo <= X * X).
  { subst sqlo. destruct (Z.leb_spec 0 lo) as [H0|H0].
    - apply IZR_le in H0. rewrite mult_IZR. nra.
    - destruct (Z.leb_spec hi 0) as [H1|H1].
      + apply IZR_le in H1. rewrite mult_IZR. nra.
      + nra. }
  assert (Hsqhi : X * X <= IZR sqhi).
  { subst sqhi.
    pose proof (IZR_le _ _ (Z.le_max_l (lo * lo) (hi * hi))) as Hl.
    pose proof (IZR_le _ _ (Z.le_max_r (lo * lo) (hi * hi))) as Hr.
    rewrite mult_IZR in Hl, Hr.
    destruct (Rle_dec 0 X); nra. }
  pose proof (floor_shift_le (2 * sqlo)) as Hf.
  pose proof (ceil_shift_ge (2 * sqhi)) as Hc.
  rewrite mult_IZR in Hf, Hc. fold U in Hf, Hc.
  rewrite !minus_IZR. fold U.
  assert (E : (2 * c * c - 1) * U = 2 * (X * X) / U - U) by (subst X; field; lra).
  rewrite E.
  assert (Hm : 2 * IZR sqlo / U <= 2 * (X * X) / U).
  { unfold Rdiv. apply Rmult_le_compat_r; [|lra].
    apply Rlt_le, Rinv_0_lt_compat, HU. }
  assert (HM : 2 * (X * X) / U <= 2 * IZR sqhi / U).
  { unfold Rdiv. apply Rmult_le_compat_r; [|lra].
    apply Rlt_le, Rinv_0_lt_compat, HU. }
  lra.
Qed.

Lemma double_angle_iter (n : nat) (I : Z * Z) (a : R) :
  encloses I (cos a) -> encloses (Nat.iter n double_angle I) (cos (2 ^ n * a)).
Proof.
  intros HI. induction n as [|n IH].
  - cbn. by rewrite Rmult_1_l.
  - cbn [Nat.iter nat_rect]. apply double_angle_sound in IH.
    replace (2 ^ S n * a) with (2 * (2 ^ n * a)) by (cbn; ring).
    by rewrite cos_2a_cos.
Qed.

Lemma IZR_two_power (z : Z) : (0 <= z)%Z -> IZR (2 ^ z) = powerRZ 2 z.
Proof.
  intros Hz. rewrite <- (Z2Nat.id z Hz).
  by rewrite <- pow_IZR, <- pow_powerRZ.
Qed.

Lemma fixed_sound (x : spec_float) (shift A : Z) :
  fixed x shift = Some A -> IZR A = SF2R x * powerRZ 2 shift.
Proof.
  destruct x as [s|s| |s m e]; cbn; try discriminate.
  - intros [= <-]. lra.
  - destruct (Z.leb_spec 0 (e + shift)) as [He|He]; [|discriminate].
    intros [= <-]. rewrite mult_IZR, IZR_two_power by exact He.
    rewrite powerRZ_add by lra. ring.
Qed.

Lemma fixed_finite (x : float) (shift A : Z) :
  fixed (Prim2SF x) shift = Some A -> is_finite x = true.
Proof. unfold is_finite. by destruct (Prim2SF x). Qed.

Lemma cos_enclosure_sound (x : spec_float) (A : Z) :
  fixed x (frac_bits - Z.of_nat halvings) = Some A ->
  (Z.abs A <= 2 * scale)%Z ->
  encloses (cos_enclosure A) (cos (SF2R x)).
Proof.
  intros HA Hb. apply fixed_sound in HA.
  pose proof scale_pos as HU.
  set (a := IZR A / IZR scale).
  assert (Hx : SF2R x = 2 ^ halvings * a).
  { subst a. rewrite HA.
    replace (IZR scale) with (powerRZ 2 frac_bits)
      by (symmetry; apply IZR_two_power; discriminate).
    rewrite pow_powerRZ. unfold Rdiv.
    rewrite <- powerRZ_neg', Rmult_assoc, <- powerRZ_add by lra.
    rewrite <- Rmult_assoc, (Rmult_comm (powerRZ _ _)), Rmult_assoc, <- powerRZ_add by lra.
    replace (Z.of_nat halvings + (frac_bits - Z.of_nat halvings + - frac_bits))%Z
      with 0%Z by lia.
    change (powerRZ 2 0) with 1. ring. }
  rewrite Hx. unfold cos_enclosure.
  apply (double_angle_iter halvings (cos_small A) a).
  apply cos_small_sound.
  - subst a. field. lra.
  - subst a. apply Z.abs_le in Hb. destruct Hb as [Hb1 Hb2].
    apply IZR_le in Hb1, Hb2. rewrite opp_IZR, mult_IZR in Hb1. rewrite mult_IZR in Hb2.
    split.
    + apply Rmult_le_reg_r with (IZR scale); [exact HU|].
      unfold Rdiv. rewrite Rmult_assoc, Rinv_l by lra. lra.
    + apply Rmult_le_reg_r with (IZR scale); [exact HU|].
      unfold Rdiv. rewrite Rmult_assoc, Rinv_l by lra. lra.
Qed.

Local Opaque cos_enclosure.

Lemma within_tolerance_sound (s : State) :
  within_tolerance s = true ->
  is_finite (y s) = true /\ is_finite (t s) = true
  /\ Rabs (number_value (y s) - cos (number_value (t s))) < 1 / 1000.
Proof.
  unfold within_tolerance, number_value.
  destruct (fixed (Prim2SF (y s)) fine_bits) as [Y|] eqn:HY; [|discriminate].
  destruct (fixed (Prim2SF (t s)) (frac_bits - Z.of_nat halvings)) as [A|] eqn:HA;
    [|discriminate].
  intros Hcheck. apply andb_prop in Hcheck. destruct Hcheck as [Hb Hcheck].
  apply Z.leb_le in Hb.
  pose proof (cos_enclosure_sound _ _ HA Hb) as Hcos.
  destruct (cos_enclosure A) as [lo hi].
  apply andb_prop in Hcheck. destruct Hcheck as [H1 H2].
  apply Z.ltb_lt, IZR_lt in H1, H2.
  rewrite !mult_IZR, minus_IZR, !mult_IZR in H1, H2.
  split; [exact (fixed_finite _ _ _ HY)|]. split; [exact (fixed_finite _ _ _ HA)|].
  apply fixed_sound in HY.
  rewrite <- (IZR_two_power fine_bits) in HY by discriminate. fold fine_scale in HY.
  unfold encloses in Hcos. cbn [fst snd] in Hcos.
  pose proof scale_pos as HU.
  assert (HV : 0 < IZR fine_scale) by (apply IZR_lt; reflexivity).
  rewrite HY in H1, H2.
  set (U := IZR scale) in *. set (V := IZR fine_scale) in *.
  set (yv := SF2R (Prim2SF (y s))) in *. set (c := cos _) in *.
  assert (HUV : 0 < U * V) by (by apply Rmult_lt_0_compat).
  apply Rabs_def1.
  - apply Rmult_lt_reg_r with (U * V); [exact HUV|].
    apply Rle_lt_trans with (yv * V * U - IZR lo * V); [|lra].
    assert (IZR lo * V <= c * U * V) by (apply Rmult_le_compat_r; lra).
    lra.
  - apply Rmult_lt_reg_r with (U * V); [exact HUV|].
    apply Rlt_le_trans with (- (IZR hi * V - yv * V * U)); [lra|].
    assert (c * U * V <= IZR hi * V) by (apply Rmult_le_compat_r; lra).
    lra.
Qed.

Lemma all_within_sound (n : nat) (s : State) :
  all_within n s = true ->
  forall i, (i <= n)%nat -> within_tolerance (Nat.iter i shm_step s) = true.
Proof.
  revert s. induction n as [|n IH]; intros s Hall i Hi.
  - assert (i = 0%nat) as -> by lia.
    cbn [all_within] in Hall. apply andb_prop in Hall. exact (proj1 Hall).
  - cbn [all_within] in Hall. apply andb_prop in Hall. destruct Hall as [H0 Hn].
    destruct i as [|i]; [exact H0|].
    rewrite Nat.iter_succ_r. apply IH; [exact Hn|lia].
Qed.
End RealFacts.

Section BigFacts.
Local Opaque halvings.

Lemma big_floor_shift_spec (a : bigZ) :
  BigZ.to_Z (big_floor_shift a) = floor_shift (BigZ.to_Z a).
Proof.
  unfold big_floor_shift, floor_shift, big_bits.
  by rewrite BigZ.spec_shiftr, BigZ.spec_of_Z.
Qed.

Lemma big_ceil_shift_spec (a : bigZ) :
  BigZ.to_Z (big_ceil_shift a) = ceil_shift (BigZ.to_Z a).
Proof.
  unfold big_ceil_shift, ceil_shift, big_bits.
  by rewrite BigZ.spec_opp, BigZ.spec_shiftr, BigZ.spec_opp, BigZ.spec_of_Z.
Qed.

Lemma big_cos_small_spec (A : bigZ) :
  big_pair (big_cos_small A) = cos_small (BigZ.to_Z A).
Proof.
  unfold big_pair, big_cos_small, cos_small, ceil_div, floor_div, big_scale.
  cbn [fst snd].
  rewrite !BigZ.spec_add, !BigZ.spec_sub, !BigZ.spec_opp, !BigZ.spec_div, !BigZ.spec_opp.
  rewrite !big_ceil_shift_spec, !big_floor_shift_spec, !BigZ.spec_square.
  rewrite !big_ceil_shift_spec, !BigZ.spec_square, !BigZ.spec_of_Z.
  reflexivity.
Qed.

Lemma big_double_angle_spec (I : bigZ * bigZ) :
  big_pair (big_double_angle I) = double_angle (big_pair I).
Proof.
  destruct I as [lo hi].
  unfold big_pair, big_double_angle, double_angle, big_scale. cbn [fst snd].
  rewrite !BigZ.spec_sub, big_floor_shift_spec, big_ceil_shift_spec, !BigZ.spec_mul.
  rewrite BigZ.spec_max, !BigZ.spec_leb, !BigZ.spec_square, !BigZ.spec_of_Z.
  change (BigZ.to_Z 0) with 0%Z. change (BigZ.to_Z 2) with 2%Z.
  destruct (0 <=? BigZ.to_Z lo)%Z; [by rewrite BigZ.spec_square|].
  destruct (BigZ.to_Z hi <=? 0)%Z; [by rewrite BigZ.spec_square|].
  reflexivity.
Qed.

Lemma big_double_angle_iter (n : nat) (I : bigZ * bigZ) :
  big_pair (Nat.iter n big_double_angle I) = Nat.iter n double_angle (big_pair I).
Proof.
  induction n as [|n IH]; [reflexivity|].
  by rewrite !Nat.iter_succ, big_double_angle_spec, IH.
Qed.

Lemma big_cos_enclosure_spec (A : bigZ) :
  big_pair (big_cos_enclosure A) = cos_enclosure (BigZ.to_Z A).
Proof.
  unfold big_cos_enclosure, cos_enclosure.
  by rewrite big_double_angle_iter, big_cos_small_spec.
Qed.

Local Opaque big_cos_enclosure cos_enclosure.

Lemma big_within_tolerance_spec (s : State) :
  big_within_tolerance s = within_tolerance s.
Proof.
  unfold big_within_tolerance, within_tolerance.
  destruct (fixed (Prim2SF (y s)) fine_bits) as [Y|]; [|reflexivity].
  destruct (fixed (Prim2SF (t s)) (frac_bits - Z.of_nat halvings)) as [A|]; [|reflexivity].
  f_equal.
  pose proof (big_cos_enclosure_spec (BigZ.of_Z A)) as HI.
  rewrite BigZ.spec_of_Z in HI.
  destruct (big_cos_enclosure (BigZ.of_Z A)) as [blo bhi].
  destruct (cos_enclosure A) as [lo hi].
  unfold big_pair in HI. cbn [fst snd] in HI. injection HI as Hlo Hhi.
  rewrite !BigZ.spec_ltb, !BigZ.spec_mul, !BigZ.spec_sub, !BigZ.spec_mul.
  unfold big_scale, big_fine_scale. rewrite !BigZ.spec_of_Z, Hlo, Hhi.
  reflexivity.
Qed.

Lemma big_all_within_spec (n : nat) (s : State) :
  big_all_within n s = all_within n s.
Proof.
  revert s. induction n as [|n IH]; intros s; cbn [big_all_within all_within];
    rewrite big_within_tolerance_spec; [reflexivity|by rewrite IH].
Qed.
End BigFacts.

(** ** The trajectory *)

Lemma PI_upper : (PI < 31421 / 10000)%R.
Proof.
  destruct (PI_2_3_7_ineq 1) as [_ Hup].
  unfold sum_f_R0, tg_alt, PI_2_3_7_tg, Ratan_seq in Hup. cbn in Hup. lra.
Qed.

Lemma shm_checked : big_all_within 6290 shm_start = true.
Proof. vm_compute. reflexivity. Qed.

Lemma shm_last_time :
  fixed (Prim2SF (t (Nat.iter 6290 shm_step shm_start))) 47 = Some 8852388017549576%Z.
Proof. vm_compute. reflexivity. Qed.

Section Accuracy.
Context {host : Host}.

Lemma shm_steps (n : nat) (σ : machine) (s : State) :
  current σ = Some s ->
  forcingFn (this σ) = Forcing.Own Forcing.none ->
  m (this σ) = 1.0 -> b (this σ) = 0.0 -> k (this σ) = 1.0 ->
  current (run (replicate n (Step 0.01)) σ) = Some (Nat.iter n shm_step s).
Proof.
  revert σ s. induction n as [|n IH]; intros σ s Hcur Hf Hm Hb Hk; [exact Hcur|].
  change (run (replicate (S n) (Step 0.01)) σ)
    with (run (replicate n (Step 0.01)) (perform (Step 0.01) σ)).
  cbn [perform]. rewrite (step_preset σ 0.01 s Forcing.none Hcur Hf). cbn [snd].
  rewrite Nat.iter_succ_r. apply IH; try done.
  unfold current. cbn. rewrite (lookup_snoc_old _ _ _ _ (lookup_snoc _ _)).
  f_equal. unfold shm_step, derivative, Forcing.none.
  rewrite Hm, Hb, Hk. reflexivity.
Qed.

(** C9: for the unforced, undamped system (m = 1, b = 0, k = 1, y0 = 1,
    v0 = 0) stepped with dt = 0.01, after each of the first 6290 steps
    (ten times the 629 steps of a period, as the accuracy test samples
    them) the computed position is a finite number whose exact value is
    within 0.001 of the cosine of the exact value of the computed time;
    the time after the last of these steps lies beyond ten periods. *)
Theorem shm_accuracy (heap : list State) (σ0 : machine) (n : nat) :
  constructor shm_config heap = Ok σ0 ->
  (n <= 6290)%nat ->
  exists s,
    current (run (replicate n (Step 0.01)) σ0) = Some s
    /\ is_finite (y s) = true /\ is_finite (t s) = true
    /\ (Rabs (number_value (y s) - cos (number_value (t s))) < 1 / 1000)%R
    /\ (n = 6290%nat -> (10 * (2 * PI) < number_value (t s))%R).
Proof.
  intros Hnew Hn.
  pose proof (constructor_ok _ _ _ Hnew) as Hσ0. cbn in Hσ0.
  exists (Nat.iter n shm_step shm_start).
  split.
  { apply shm_steps; rewrite Hσ0; try reflexivity.
    unfold current. cbn. apply lookup_snoc. }
  pose proof shm_checked as Hall. rewrite big_all_within_spec in Hall.
  destruct (within_tolerance_sound _ (all_within_sound _ _ Hall n Hn)) as (Hy & Ht & Hacc).
  split; [exact Hy|]. split; [exact Ht|]. split; [exact Hacc|].
  intros ->. unfold number_value.
  pose proof (fixed_sound _ _ _ shm_last_time) as Hlast.
  rewrite <- IZR_two_power in Hlast by discriminate.
  change (2 ^ 47)%Z with 140737488355328%Z in Hlast.
  pose proof PI_upper. lra.
Qed.
End Accuracy.

(** ** NaN in binary64 arithmetic *)

Lemma add_nan_l (x : float) : nan + x = nan.
Proof. apply Prim2SF_inj. rewrite add_spec. by destruct (Prim2SF x). Qed.

Lemma add_nan_r (x : float) : x + nan = nan.
Proof. apply Prim2SF_inj. rewrite add_spec. by destruct (Prim2SF x). Qed.

Lemma sub_nan_l (x : float) : nan - x = nan.
Proof. apply Prim2SF_inj. rewrite sub_spec. by destruct (Prim2SF x). Qed.

Lemma sub_nan_r (x : float) : x - nan = nan.
Proof. apply Prim2SF_inj. rewrite sub_spec. by destruct (Prim2SF x). Qed.

Lemma mul_nan_l (x : float) : nan * x = nan.
Proof. apply Prim2SF_inj. rewrite mul_spec. by destruct (Prim2SF x). Qed.

Lemma mul_nan_r (x : float) : x * nan = nan.
Proof. apply Prim2SF_inj. rewrite mul_spec. by destruct (Prim2SF x). Qed.

Lemma div_nan_l (x : float) : nan / x = nan.
Proof. apply Prim2SF_inj. rewrite div_spec. by destruct (Prim2SF x). Qed.

Lemma div_nan_r (x : float) : x / nan = nan.
Proof. apply Prim2SF_inj. rewrite div_spec. by destruct (Prim2SF x). Qed.

Ltac nan_simpl :=
  repeat first
    [ rewrite add_nan_l | rewrite add_nan_r | rewrite sub_nan_l | rewrite sub_nan_r
    | rewrite mul_nan_l | rewrite mul_nan_r | rewrite div_nan_l | rewrite div_nan_r ].

(** ** NaN through the integrators *)

Lemma rk4Step_nan (s s' : State) (f : State -> result Deriv) (dt : float) :
  rk4Step s f dt = Ok s' ->
  (y s = nan -> y s' = nan) /\ (v s = nan -> v s' = nan) /\ (t s = nan -> t s' = nan)
  /\ (dt = nan -> s' = {| y := nan; v := nan; t := nan |}).
Proof.
  destruct s as [y0 v0 t0]. unfold rk4Step, mbind, result_bind.
  destruct (f _) as [k1|]; [|done].
  destruct (f _) as [k2|]; [|done].
  destruct (f _) as [k3|]; [|done].
  destruct (f _) as [k4|]; [|done].
  intros [= <-]. cbn.
  repeat split; intros ->; by nan_simpl.
Qed.

Lemma eulerStep_nan (s s' : State) (f : State -> result Deriv) (dt : float) :
  eulerStep s f dt = Ok s' ->
  (y s = nan -> y s' = nan) /\ (v s = nan -> v s' = nan) /\ (t s = nan -> t s' = nan)
  /\ (dt = nan -> s' = {| y := nan; v := nan; t := nan |}).
Proof.
  destruct s as [y0 v0 t0]. unfold eulerStep, mbind, result_bind.
  destruct (f _) as [k1|]; [|done].
  intros [= <-]. cbn.
  repeat split; intros ->; by nan_simpl.
Qed.

(** X8: neither integrator recovers from NaN. When [rk4Step] or
    [eulerStep] returns, a NaN position, velocity or time of the input is
    a NaN of the output, and a NaN step size makes all three NaN,
    whatever the derivative function returns. *)
Theorem integrators_keep_nan (s s' : State) (f : State -> result Deriv) (dt : float) :
  rk4Step s f dt = Ok s' \/ eulerStep s f dt = Ok s' ->
  (y s = nan -> y s' = nan) /\ (v s = nan -> v s' = nan) /\ (t s = nan -> t s' = nan)
  /\ (dt = nan -> s' = {| y := nan; v := nan; t := nan |}).
Proof.
  intros [H|H]; [exact (rk4Step_nan _ _ _ _ H)|exact (eulerStep_nan _ _ _ _ H)].
Qed.

(** ** Sequences of calls *)

Section RunFacts.
Context {host : Host}.

Lemma setForcing_state (name : string) (params : option (gmap string float)) (σ : machine) :
  current (snd (setForcing name params σ)) = current σ.
Proof.
  unfold current. pose proof (setForcing_frame name params σ) as Hf. cbn in Hf.
  destruct Hf as (_ & _ & -> & -> & _). done.
Qed.

Lemma setParameters_state (p : Partial.t) (σ : machine) :
  current (snd (setParameters p σ)) = current σ.
Proof. by rewrite setParameters_run. Qed.

(** A call either leaves the state object in place or, for a step that
    returns, installs the integrator's result. *)
Lemma perform_state (c : operation) (σ : machine) (s : State) :
  current σ = Some s ->
  current (perform c σ) = Some s
  \/ exists dt s', c = Step dt
       /\ rk4Step s (computeDerivatives (this σ)) dt = Ok s'
       /\ current (perform c σ) = Some s'.
Proof.
  intros Hcur. destruct c as [dt|p|name params]; cbn.
  - destruct (rk4Step s (computeDerivatives (this σ)) dt) as [s'|msg] eqn:Hnext.
    + right. exists dt, s'. split; [done|]. split; [done|].
      rewrite (step_run _ _ _ _ Hcur Hnext). unfold current. cbn.
      apply lookup_snoc_old, lookup_snoc.
    + left. by rewrite (step_throws _ _ _ _ Hcur Hnext).
  - left. by rewrite setParameters_state.
  - left. by rewrite setForcing_state.
Qed.

Lemma perform_wf (c : operation) (σ : machine) : wf σ -> wf (perform c σ).
Proof.
  intros [s Hs]. destruct (perform_state c σ s Hs) as [H|(dt & s' & _ & _ & H)];
    unfold wf; rewrite H; by eexists.
Qed.

Lemma step_this (σ : machine) (dt : float) :
  exists l, this (snd (step dt σ)) = set_state l (this σ).
Proof. destruct (step_frame σ dt) as (l & more & Hl & _). by exists l. Qed.

Lemma perform_valid (c : operation) (σ : machine) :
  valid_parameters σ -> valid_parameters (perform c σ).
Proof.
  unfold valid_parameters. intros (Hm & Hb & Hk).
  destruct c as [dt|p|name params]; cbn.
  - destruct (step_this σ dt) as [l ->]. done.
  - rewrite setParameters_run. cbn.
    destruct p as [pm pb pk]. unfold mass_ok, damping_ok, spring_ok. cbn.
    destruct pm as [x|]; [destruct (x <=? 0) eqn:Hx|];
      (destruct pb as [x'|]; [destruct (x' <? 0) eqn:Hx'|]);
      (destruct pk as [x''|]; [destruct (x'' <? 0) eqn:Hx''|]); cbn; done.
  - pose proof (setForcing_frame name params σ) as Hf. cbn in Hf.
    destruct Hf as (_ & _ & _ & _ & Hp). unfold parameters in Hp.
    injection Hp as -> -> ->. done.
Qed.

Lemma perform_sync (c : operation) (σ : machine) : in_sync σ -> in_sync (perform c σ).
Proof.
  unfold in_sync. intros Hs. destruct c as [dt|p|name params]; cbn.
  - destruct (step_this σ dt) as [l ->]. done.
  - rewrite setParameters_run. done.
  - unfold setForcing. destruct (Forcing.get Forcing.presets name) eqn:Hg; cbn; done.
Qed.

Lemma perform_heap (c : operation) (σ : machine) :
  exists more, objs (perform c σ) = objs σ ++ more.
Proof.
  destruct c as [dt|p|name params]; cbn.
  - destruct (step_frame σ dt) as (l & more & _ & Hh & _). by exists more.
  - rewrite setParameters_run. exists []. by rewrite app_nil_r.
  - pose proof (setForcing_frame name params σ) as Hf. cbn in Hf.
    destruct Hf as (_ & _ & _ & -> & _). exists []. by rewrite app_nil_r.
Qed.

Lemma run_cons (c : operation) (calls : list operation) (σ : machine) :
  run (c :: calls) σ = run calls (perform c σ).
Proof. reflexivity. Qed.

Lemma run_keeps (P : machine -> Prop) (calls : list operation) (σ : machine) :
  (forall c σ, P σ -> P (perform c σ)) -> P σ -> P (run calls σ).
Proof.
  intros Hstep. revert σ. induction calls as [|c calls IH]; intros σ Hσ; [done|].
  rewrite run_cons. apply IH, Hstep, Hσ.
Qed.

Lemma constructor_wf (config : Config.t) (heap : list State) (σ : machine) :
  constructor config heap = Ok σ -> wf σ.
Proof.
  intros Hσ. rewrite (constructor_ok _ _ _ Hσ). unfold wf, current. cbn.
  rewrite lookup_snoc. by eexists.
Qed.

Lemma constructor_valid (config : Config.t) (heap : list State) (σ : machine) :
  constructor config heap = Ok σ -> valid_parameters σ.
Proof.
  intros Hσ. pose proof (constructor_ok _ _ _ Hσ) as Hshape.
  unfold constructor in Hσ. unfold valid_parameters. rewrite Hshape. cbn.
  by repeat case_match.
Qed.

Lemma constructor_sync (config : Config.t) (heap : list State) (σ : machine) :
  constructor config heap = Ok σ -> in_sync σ.
Proof. intros Hσ. by rewrite (constructor_ok _ _ _ Hσ). Qed.

(** X13: after construction and any sequence of [step], [setParameters]
    and [setForcing] calls, failed ones included, the receiver refers to a
    live state object, the stored parameters pass the constructor's
    checks, the forcing name names the function in use, the objects that
    existed before are where they were, and the initial conditions are
    those of the construction. *)
Theorem run_invariant (config : Config.t) (heap : list State) (σ0 : machine)
    (calls : list operation) :
  constructor config heap = Ok σ0 ->
  let σ := run calls σ0 in
  wf σ /\ valid_parameters σ /\ in_sync σ
  /\ (exists more, objs σ = heap ++ more)
  /\ y0 (this σ) = default 1.0 (Config.y0 config)
  /\ v0 (this σ) = default 0.0 (Config.v0 config).
Proof.
  intros Hnew σ.
  split; [apply run_keeps; [apply perform_wf|by eapply constructor_wf]|].
  split; [apply run_keeps; [apply perform_valid|by eapply constructor_valid]|].
  split; [apply run_keeps; [apply perform_sync|by eapply constructor_sync]|].
  split.
  - subst σ. apply (run_keeps (fun σ => exists more, objs σ = heap ++ more)).
    + intros c σ [more Hm]. destruct (perform_heap c σ) as [more' ->].
      exists (more ++ more'). by rewrite Hm, app_assoc.
    + rewrite (constructor_ok _ _ _ Hnew). by eexists.
  - subst σ. destruct (run_initial calls σ0) as [-> ->].
    by rewrite (constructor_ok _ _ _ Hnew).
Qed.

End RunFacts.

(** ** Signs of products and sums *)

Lemma SFmul_sign (x y : spec_float) :
  SFmul prec emax x y = S754_nan
  \/ SFsign (SFmul prec emax x y) = xorb (SFsign x) (SFsign y).
Proof.
  destruct x as [sx|sx| |sx mx ex], y as [sy|sy| |sy my ey]; cbn; auto.
  pose proof (binary_round_aux_sign (xorb sx sy) (Z.pos (mx * my)) (ex + ey) loc_Exact) as H.
  destruct (binary_round_aux _ _ _ _ _ _); cbn; auto.
Qed.

Lemma SFmul_zero (x y : spec_float) :
  SFzero x -> SFmul prec emax x y = S754_nan \/ SFzero (SFmul prec emax x y).
Proof. destruct x as [sx|sx| |sx mx ex], y as [sy|sy| |sy my ey]; cbn; try done; auto. Qed.

Lemma SFnonneg_cases (x : spec_float) :
  SFnonneg x <-> x = S754_nan \/ SFzero x \/ SFsign x = false.
Proof.
  destruct x as [s|s| |s m e]; cbn; intuition (try congruence); try discriminate.
Qed.

Lemma SFadd_nonneg (x y : spec_float) :
  SFnonneg x -> SFnonneg y -> SFnonneg (SFadd prec emax x y).
Proof.
  destruct x as [[]|[]| |[] mx ex], y as [[]|[]| |[] my ey]; cbn; try done.
  intros _ _.
  destruct (shl_align mx ex _) as [mx' ex'], (shl_align my ey _) as [my' ey']. cbn.
  change (Z.pos mx' + Z.pos my')%Z with (Z.pos (mx' + my')).
  unfold binary_normalize, binary_round.
  destruct (shl_align (mx' + my') _ _) as [mz ez].
  pose proof (binary_round_aux_sign false (Z.pos mz) ez loc_Exact) as H.
  by destruct (binary_round_aux _ _ _ _ _ _).
Qed.

Lemma nonneg_square (a y : float) :
  SFnonneg (Prim2SF a) -> SFnonneg (Prim2SF (a * y * y)).
Proof.
  intros Ha. rewrite !mul_spec. unfold SF64mul.
  set (A := Prim2SF a) in *. set (Y := Prim2SF y).
  apply SFnonneg_cases in Ha. apply SFnonneg_cases.
  destruct Ha as [->|[Hz|Hs]].
  - left. done.
  - destruct (SFmul_zero A Y Hz) as [->|Hz']; [by left|].
    destruct (SFmul_zero _ Y Hz') as [->|Hz'']; auto.
  - destruct (SFmul_sign A Y) as [->|H1]; [by left|].
    destruct (SFmul_sign (SFmul prec emax A Y) Y) as [->|H2]; [by left|].
    right; right. rewrite H2, H1, Hs. by destruct (SFsign Y).
Qed.

Lemma half_nonneg (x : float) : SFnonneg (Prim2SF x) -> SFnonneg (Prim2SF (0.5 * x)).
Proof.
  intros Hx. rewrite mul_spec. unfold SF64mul.
  change (Prim2SF 0.5) with (S754_finite false 4503599627370496 (-53)).
  destruct (Prim2SF x) as [s|s| |s mx ex]; cbn in *; try done.
  subst s. cbn.
  pose proof (binary_round_aux_sign false (Z.pos (4503599627370496 * mx)) (-53 + ex) loc_Exact) as H.
  by destruct (binary_round_aux _ _ _ _ _ _).
Qed.

Lemma not_leb_zero_nonneg (x : float) : (x <=? 0) = false -> SFnonneg (Prim2SF x).
Proof.
  rewrite leb_spec. change (Prim2SF 0) with (S754_zero false).
  by destruct (Prim2SF x) as [s|s| |s mx ex]; try destruct s.
Qed.

Lemma not_ltb_zero_nonneg (x : float) : (x <? 0) = false -> SFnonneg (Prim2SF x).
Proof.
  rewrite ltb_spec. change (Prim2SF 0) with (S754_zero false).
  by destruct (Prim2SF x) as [s|s| |s mx ex]; try destruct s.
Qed.

Lemma nonneg_not_ltb_zero (x : float) : SFnonneg (Prim2SF x) -> (x <? 0) = false.
Proof.
  rewrite ltb_spec. change (Prim2SF 0) with (S754_zero false).
  by destruct (Prim2SF x) as [s|s| |s mx ex]; try destruct s.
Qed.

(** The energy formula on parameters that pass validation *)
Lemma energy_nonneg (m k y v : float) :
  (m <=? 0) = false -> (k <? 0) = false ->
  (0.5 * m * v * v + 0.5 * k * y * y <? 0) = false.
Proof.
  intros Hm Hk. apply nonneg_not_ltb_zero. rewrite add_spec.
  apply SFadd_nonneg; apply nonneg_square, half_nonneg.
  - by apply not_leb_zero_nonneg.
  - by apply not_ltb_zero_nonneg.
Qed.

Section EnergyFacts.
Context {host : Host}.

Lemma getEnergy_run (σ : machine) (s : State) :
  current σ = Some s ->
  getEnergy σ = (Ok (0.5 * m (this σ) * v s * v s + 0.5 * k (this σ) * y s * y s), σ).
Proof.
  unfold current. intros Hs. unfold getEnergy. unfold_method. rewrite Hs.
  by destruct s.
Qed.

(** X17: after construction and any sequence of calls, [getEnergy]
    returns [0.5 m v v + 0.5 k y y] for the current state, changes
    nothing, and the number it returns is never below zero (it is zero,
    positive or NaN). *)
Theorem getEnergy_never_negative (config : Config.t) (heap : list State) (σ0 : machine)
    (calls : list operation) :
  constructor config heap = Ok σ0 ->
  let σ := run calls σ0 in
  exists s e,
    current σ = Some s
    /\ getEnergy σ = (Ok e, σ)
    /\ e = 0.5 * m (this σ) * v s * v s + 0.5 * k (this σ) * y s * y s
    /\ (e <? 0) = false.
Proof.
  intros Hnew σ.
  assert (Hwf : wf σ) by (apply run_keeps; [apply perform_wf|by eapply constructor_wf]).
  assert (Hv : valid_parameters σ)
    by (apply run_keeps; [apply perform_valid|by eapply constructor_valid]).
  destruct Hwf as [s Hs]. destruct Hv as (Hm & _ & Hk).
  exists s. eexists. split; [done|]. split; [by apply getEnergy_run|].
  split; [done|]. by apply energy_nonneg.
Qed.
End EnergyFacts.

(** ** Rest points *)

(** Adding a zero slope times a finite step changes nothing. *)
Lemma add_zero_slope (x dt : float) :
  is_finite dt = true -> not_minus_zero x -> x + dt * 0 = x.
Proof.
  unfold is_finite, not_minus_zero. intros Hdt Hx.
  apply Prim2SF_inj. rewrite add_spec, mul_spec.
  change (Prim2SF 0) with (S754_zero false).
  destruct (Prim2SF dt) as [[]|[]| |[] md ed], (Prim2SF x) as [[]|[]| |[] mx ex];
    cbn in *; done.
Qed.

Lemma rest_acceleration (m b k : float) :
  (m <=? 0) = false -> is_finite m = true ->
  (b <? 0) = false -> is_finite b = true ->
  (k <? 0) = false -> is_finite k = true ->
  (- b * 0 - k * 0 + 0) / m = 0.
Proof.
  unfold is_finite. rewrite leb_spec, !ltb_spec.
  intros Hm Hfm Hb Hfb Hk Hfk.
  apply Prim2SF_inj.
  rewrite div_spec, add_spec, sub_spec, !mul_spec, opp_spec.
  change (Prim2SF 0) with (S754_zero false) in *.
  destruct (Prim2SF m) as [[]|[]| |[] mm em], (Prim2SF b) as [[]|[]| |[] mb eb],
    (Prim2SF k) as [[]|[]| |[] mk ek]; cbn in *; done.
Qed.

(** At a point where the derivative function returns zero slopes at every
    time, both integrators return the point itself, with the time
    advanced. *)
Lemma integrators_rest (s : State) (f : State -> result Deriv) (dt : float) :
  (forall t', f {| y := y s; v := v s; t := t' |} = Ok {| dydt := 0; dvdt := 0 |}) ->
  is_finite dt = true -> not_minus_zero (y s) -> not_minus_zero (v s) ->
  rk4Step s f dt = Ok {| y := y s; v := v s; t := t s + dt |}
  /\ eulerStep s f dt = Ok {| y := y s; v := v s; t := t s + dt |}.
Proof.
  destruct s as [y0 v0 t0]. cbn. intros Hf Hdt Hy Hv.
  assert (Hy1 : y0 + 0 * dt = y0) by (rewrite float_mul_comm; by apply add_zero_slope).
  assert (Hv1 : v0 + 0 * dt = v0) by (rewrite float_mul_comm; by apply add_zero_slope).
  split.
  - unfold rk4Step, mbind, result_bind.
    rewrite Hf. cbn [dydt dvdt]. change (0.5 * 0) with 0. rewrite Hy1, Hv1.
    rewrite Hf. cbn [dydt dvdt]. change (0.5 * 0) with 0. rewrite Hy1, Hv1.
    rewrite Hf. cbn [dydt dvdt]. rewrite Hy1, Hv1.
    rewrite Hf. cbn [dydt dvdt].
    change ((0 + 2 * 0 + 2 * 0 + 0) / 6) with 0. by rewrite Hy1, Hv1.
  - unfold eulerStep, mbind, result_bind.
    rewrite Hf. cbn [dydt dvdt]. by rewrite Hy1, Hv1.
Qed.

(** X9: a rest point of the derivative function is a fixed point of
    both integrators. Where the function returns zero slopes at every
    time, [rk4Step] and [eulerStep] with a finite step return the input
    position and velocity bit for bit (neither being -0), with the time
    advanced by [dt]. *)
Theorem rest_point_is_fixed (s : State) (f : State -> result Deriv) (dt : float) :
  (forall t', f {| y := y s; v := v s; t := t' |} = Ok {| dydt := 0; dvdt := 0 |}) ->
  is_finite dt = true -> not_minus_zero (y s) -> not_minus_zero (v s) ->
  rk4Step s f dt = Ok {| y := y s; v := v s; t := t s + dt |}
  /\ eulerStep s f dt = Ok {| y := y s; v := v s; t := t s + dt |}.
Proof. exact (integrators_rest s f dt). Qed.

Section RestFacts.
Context {host : Host}.

Lemma computeDerivatives_rest (s : MassSpringSystem)
    (f : float -> gmap string float -> float) (t' : float) :
  forcingFn s = Forcing.Own f -> f t' (forcingParams s) = 0 ->
  (m s <=? 0) = false -> is_finite (m s) = true ->
  (b s <? 0) = false -> is_finite (b s) = true ->
  (k s <? 0) = false -> is_finite (k s) = true ->
  computeDerivatives s {| y := 0; v := 0; t := t' |} = Ok {| dydt := 0; dvdt := 0 |}.
Proof.
  intros Hf Hzero Hm Hfm Hb Hfb Hk Hfk.
  rewrite (computeDerivatives_preset _ _ _ Hf). unfold derivative. cbn.
  rewrite Hzero. by rewrite rest_acceleration.
Qed.

Lemma step_rest (σ : machine) (f : float -> gmap string float -> float)
    (t0 dt : float) :
  current σ = Some {| y := 0; v := 0; t := t0 |} ->
  forcingFn (this σ) = Forcing.Own f ->
  (forall t', f t' (forcingParams (this σ)) = 0) ->
  valid_parameters σ -> finite_parameters σ -> is_finite dt = true ->
  current (perform (Step dt) σ) = Some {| y := 0; v := 0; t := t0 + dt |}
  /\ this (perform (Step dt) σ) = set_state (length (objs σ)) (this σ).
Proof.
  intros Hcur Hf Hzero (Hm & Hb & Hk) (Hfm & Hfb & Hfk) Hdt.
  assert (Hnext : rk4Step {| y := 0; v := 0; t := t0 |} (computeDerivatives (this σ)) dt
                  = Ok {| y := 0; v := 0; t := t0 + dt |}).
  { apply (integrators_rest {| y := 0; v := 0; t := t0 |}); try done.
    intros t'. by apply (computeDerivatives_rest _ f). }
  cbn [perform]. rewrite (step_run _ _ _ _ Hcur Hnext). cbn. split; [|done].
  unfold current. cbn. apply lookup_snoc_old, lookup_snoc.
Qed.

(** X10: a system at rest stays at rest. With finite parameters that
    pass validation, a forcing function that is 0 at every time, and
    position and velocity 0, any number of steps of finite size leaves
    position and velocity exactly 0; the time is the sum of the steps. *)
Theorem rest_is_kept (σ : machine) (f : float -> gmap string float -> float)
    (t0 : float) (dts : list float) :
  current σ = Some {| y := 0; v := 0; t := t0 |} ->
  forcingFn (this σ) = Forcing.Own f ->
  (forall t', f t' (forcingParams (this σ)) = 0) ->
  valid_parameters σ -> finite_parameters σ ->
  Forall (fun dt => is_finite dt = true) dts ->
  current (run (Step <$> dts) σ) = Some {| y := 0; v := 0; t := foldl PrimFloat.add t0 dts |}.
Proof.
  intros Hcur Hf Hzero Hv Hfin Hdts. revert σ t0 Hcur Hf Hzero Hv Hfin.
  induction Hdts as [|dt dts Hdt _ IH]; intros σ t0 Hcur Hf Hzero Hv Hfin; [done|].
  rewrite fmap_cons, run_cons. cbn [foldl].
  destruct (step_rest σ f t0 dt Hcur Hf Hzero Hv Hfin Hdt) as [Hcur' Hthis].
  apply IH; try done; unfold valid_parameters, finite_parameters in *;
    rewrite Hthis; done.
Qed.
End RestFacts.

Section MoreRunFacts.
Context {host : Host}.

(** ** NaN in the state *)

(** X11: a NaN in the state never goes away. If the position, the
    velocity or the time of the current state is NaN, it is still NaN
    after any sequence of [step], [setParameters] and [setForcing] calls,
    whatever the parameters, the forcing and the step sizes. *)
Theorem nan_state_is_absorbing (σ : machine) (s : State) (calls : list operation) :
  current σ = Some s ->
  exists s', current (run calls σ) = Some s'
    /\ (y s = nan -> y s' = nan) /\ (v s = nan -> v s' = nan) /\ (t s = nan -> t s' = nan).
Proof.
  revert σ s. induction calls as [|c calls IH]; intros σ s Hcur.
  - by exists s.
  - rewrite run_cons.
    destruct (perform_state c σ s Hcur) as [H|(dt & s1 & _ & Hstep & H)].
    + by apply IH.
    + destruct (IH _ _ H) as (s' & Hs' & Hy & Hv & Ht).
      destruct (rk4Step_nan _ _ _ _ Hstep) as (Hy1 & Hv1 & Ht1 & _).
      exists s'. repeat split; auto.
Qed.

(** ** Steps with a function of the catalog *)

Lemma constructor_preset (config : Config.t) (heap : list State) (σ : machine) :
  constructor config heap = Ok σ -> preset_selected σ.
Proof.
  intros Hσ. rewrite (constructor_ok _ _ _ Hσ). by exists Forcing.none.
Qed.

Lemma perform_preset (c : operation) (σ : machine) :
  own_names [c] -> preset_selected σ -> preset_selected (perform c σ).
Proof.
  intros Hown (f & Hf & Hfn). unfold preset_selected.
  destruct c as [dt|p|name params]; cbn.
  - destruct (step_this σ dt) as [l ->]. by exists f.
  - rewrite setParameters_run. by exists f.
  - unfold setForcing, Forcing.get.
    destruct (Forcing.presets !! name) as [g|] eqn:Hg; cbn.
    + by exists g.
    + rewrite decide_False; [by exists f|].
      apply (Hown name params). apply list_elem_of_here.
Qed.

Lemma own_names_cons (c : operation) (calls : list operation) :
  own_names (c :: calls) -> own_names [c] /\ own_names calls.
Proof.
  unfold own_names. intros H. split; intros name params Hin; apply (H name params).
  - apply list_elem_of_singleton in Hin as ->. apply list_elem_of_here.
  - by apply list_elem_of_further.
Qed.

Lemma run_preset (calls : list operation) (σ : machine) :
  own_names calls -> preset_selected σ -> preset_selected (run calls σ).
Proof.
  revert σ. induction calls as [|c calls IH]; intros σ Hown Hσ; [done|].
  apply own_names_cons in Hown as [Hc Hcalls].
  rewrite run_cons. by apply IH, perform_preset.
Qed.

Lemma run_clock (calls : list operation) (σ : machine) (s : State) :
  own_names calls -> preset_selected σ -> current σ = Some s ->
  exists s', current (run calls σ) = Some s'
    /\ t s' = foldl (fun t c => match c with Step dt => t + dt | _ => t end) (t s) calls.
Proof.
  revert σ s. induction calls as [|c calls IH]; intros σ s Hown Hσ Hcur.
  - by exists s.
  - apply own_names_cons in Hown as [Hc Hcalls].
    rewrite run_cons. cbn [foldl].
    pose proof (perform_preset c σ Hc Hσ) as Hσ'.
    destruct c as [dt|p|name params].
    + destruct Hσ as (f & _ & Hfn).
      assert (Hnext : current (perform (Step dt) σ)
                      = Some (rk4_formula (y s) (v s) (t s) (derivative (this σ) f) dt)).
      { cbn [perform]. rewrite (step_preset σ dt s f Hcur Hfn).
        unfold current. cbn. apply lookup_snoc_old, lookup_snoc. }
      destruct (IH _ _ Hcalls Hσ' Hnext) as (s' & Hs' & Ht). by exists s'.
    + destruct (IH (perform (SetParameters p) σ) s Hcalls Hσ') as (s' & Hs' & Ht).
      { cbn [perform]. by rewrite setParameters_state. }
      by exists s'.
    + destruct (IH (perform (SetForcing name params) σ) s Hcalls Hσ') as (s' & Hs' & Ht).
      { cbn [perform]. by rewrite setForcing_state. }
      by exists s'.
Qed.

(** X14: the clock is advanced by [step] alone. After construction and
    any calls that select no inherited name, the time of the state is the
    sum, taken left to right from 0, of the [dt] of the [step] calls;
    [setParameters] and [setForcing] add nothing, and neither the state
    nor the parameters nor the forcing influence it. *)
Theorem clock_adds_each_dt (config : Config.t) (heap : list State) (σ0 : machine)
    (calls : list operation) :
  constructor config heap = Ok σ0 -> own_names calls ->
  exists s, current (run calls σ0) = Some s /\ t s = elapsed calls.
Proof.
  intros Hnew Hown.
  assert (Hcur : current σ0 = Some {| y := default 1.0 (Config.y0 config);
                                      v := default 0.0 (Config.v0 config); t := 0 |}).
  { rewrite (constructor_ok _ _ _ Hnew). unfold current. cbn. apply lookup_snoc. }
  exact (run_clock calls σ0 _ Hown (constructor_preset _ _ _ Hnew) Hcur).
Qed.

(** X15: [step] accepts every [dt] and never throws, as long as no
    member inherited from [Object.prototype] was selected as forcing. *)
Theorem step_never_throws (config : Config.t) (heap : list State) (σ0 : machine)
    (calls : list operation) (dt : float) :
  constructor config heap = Ok σ0 -> own_names calls ->
  exists r σ', step dt (run calls σ0) = (Ok r, σ').
Proof.
  intros Hnew Hown.
  assert (Hwf : wf (run calls σ0))
    by (apply run_keeps; [apply perform_wf|by eapply constructor_wf]).
  destruct Hwf as [s Hs].
  destruct (run_preset calls σ0 Hown (constructor_preset _ _ _ Hnew)) as (f & _ & Hf).
  do 2 eexists. exact (step_preset _ dt s f Hs Hf).
Qed.

(** ** Calls that throw *)

Lemma getState_throws (σ : machine) (msg : string) :
  fst (getState σ) = Throw msg -> snd (getState σ) = σ.
Proof.
  unfold getState. unfold_method. destruct (objs σ !! state (this σ)); [done|].
  by destruct σ.
Qed.

(** X16: a [step], [setForcing], [getState] or [getEnergy] call that
    throws leaves the system exactly as it was; [reset] never throws, and
    [getParameters], [getForcing] and [getSystemProperties] change
    nothing. *)
Theorem failed_call_changes_nothing (σ : machine) (msg : string) :
  (forall dt, fst (step dt σ) = Throw msg -> snd (step dt σ) = σ)
  /\ (forall name params,
        fst (setForcing name params σ) = Throw msg -> snd (setForcing name params σ) = σ)
  /\ (fst (getState σ) = Throw msg -> snd (getState σ) = σ)
  /\ (fst (getEnergy σ) = Throw msg -> snd (getEnergy σ) = σ)
  /\ fst (reset σ) = Ok tt
  /\ snd (getParameters σ) = σ /\ snd (getForcing σ) = σ
  /\ snd (getSystemProperties σ) = σ.
Proof.
  split; [|split; [|split; [|split]]].
  - intros dt. destruct (current σ) as [cur|] eqn:Hcur.
    + destruct (rk4Step cur (computeDerivatives (this σ)) dt) as [next|msg'] eqn:Hnext.
      * by rewrite (step_run _ _ _ _ Hcur Hnext).
      * by rewrite (step_throws _ _ _ _ Hcur Hnext).
    + by rewrite (step_dangling _ _ Hcur).
  - intros name params. unfold setForcing.
    by destruct (Forcing.get Forcing.presets name).
  - apply getState_throws.
  - unfold getEnergy. unfold_method. destruct (objs σ !! state (this σ)) as [[]|]; [done|].
    by destruct σ.
  - repeat split; by destruct σ.
Qed.
End MoreRunFacts.

Section ForcingFacts.
Context {host : Host}.

(** ** getForcingFunction *)

(** X5: [getForcingFunction(name)] and [setForcing(name, params)] accept
    the same names: when the one throws, the other throws the same
    message and changes nothing; when it returns, [setForcing] succeeds
    and installs the function returned. It returns a preset exactly for
    the seven catalog names, the inherited member for every property name
    of [Object.prototype], and throws for every other name. *)
Theorem getForcingFunction_as_setForcing (name : string)
    (params : option (gmap string float)) (σ : machine) :
  match Forcing.getForcingFunction name with
  | Throw msg => setForcing name params σ = (Throw msg, σ)
  | Ok fn =>
      fst (setForcing name params σ) = Ok tt
      /\ forcingFn (this (snd (setForcing name params σ))) = fn
      /\ forcingName (this (snd (setForcing name params σ))) = name
  end
  /\ (name ∈ catalog <-> exists f, Forcing.getForcingFunction name = Ok (Forcing.Own f))
  /\ (name ∈ Forcing.Object_prototype ->
        Forcing.getForcingFunction name = Ok (Forcing.Inherited name))
  /\ (name ∉ catalog -> name ∉ Forcing.Object_prototype ->
        Forcing.getForcingFunction name = Throw ("Unknown forcing function: " +:+ name)).
Proof.
  unfold Forcing.getForcingFunction, setForcing, Forcing.get.
  split; [|split; [|split]].
  - destruct (Forcing.presets !! name) as [f|]; [done|].
    by destruct (decide (name ∈ Forcing.Object_prototype)).
  - rewrite presets_catalog. split.
    + intros [f ->]. by exists f.
    + intros [f Hf]. destruct (Forcing.presets !! name) as [g|]; [by eexists|].
      by destruct (decide (name ∈ Forcing.Object_prototype)).
  - intros Hp. destruct (Forcing.presets !! name) as [f|] eqn:Hf.
    + exfalso. assert (Hc : name ∈ catalog) by (apply presets_catalog; by eexists).
      revert Hp Hc. unfold Forcing.Object_prototype, catalog.
      rewrite !elem_of_cons, !elem_of_nil. intros Hp Hc.
      repeat (destruct Hp as [->|Hp]; [repeat (destruct Hc as [Hc|Hc]; [discriminate Hc|]); done|]).
      done.
    + by rewrite decide_True.
  - intros Hc Hp. destruct (Forcing.presets !! name) as [f|] eqn:Hf.
    + exfalso. apply Hc, presets_catalog. by eexists.
    + by rewrite decide_False.
Qed.

(** ** Caller-supplied parameters *)

Lemma param_union (p d : gmap string float) (key : string) (x dflt : float) :
  d !! key = Some x -> Forcing.param (p ∪ d) key dflt = default x (p !! key).
Proof.
  intros Hd. unfold Forcing.param. rewrite lookup_union, Hd.
  by destruct (p !! key).
Qed.

Lemma setForcing_preset_run (name : string) (params : option (gmap string float))
    (σ : machine) (f : float -> gmap string float -> float) (d : gmap string float) :
  Forcing.presets !! name = Some f -> Forcing.defaultParams !! name = Some d ->
  setForcing name params σ
  = (Ok tt, mkMachine (set_forcing name (Forcing.Own f) (default ∅ params ∪ d) (this σ))
                      (objs σ)).
Proof. intros Hf Hd. unfold setForcing, Forcing.get. by rewrite Hf, Hd. Qed.

(** Each row of the catalog table: the function, its defaults, and its
    value on the defaults overridden by any parameters *)
Lemma catalog_entry (name : string) (w : waveform) :
  (name, w) ∈ catalog_table ->
  exists f,
    Forcing.presets !! name = Some f
    /\ Forcing.defaultParams !! name = Some (waveform_params w)
    /\ forall q t, f t (q ∪ waveform_params w) = waveform_value (resolve w q) t.
Proof.
  unfold catalog_table. rewrite !elem_of_cons, elem_of_nil.
  intros [Hw|[Hw|[Hw|[Hw|[Hw|[Hw|[Hw|[]]]]]]]]; injection Hw as -> ->.
  - exists Forcing.none. by repeat split.
  - exists Forcing.constant. split; [reflexivity|]. split; [reflexivity|].
    intros q t. unfold Forcing.constant. cbn.
    by rewrite (param_union q _ "force" 1.0).
  - exists Forcing.sine. split; [reflexivity|]. split; [reflexivity|].
    intros q t. unfold Forcing.sine. cbn.
    by rewrite (param_union q _ "amplitude" 1.0), (param_union q _ "frequency" 1.0).
  - exists Forcing.cosine. split; [reflexivity|]. split; [reflexivity|].
    intros q t. unfold Forcing.cosine. cbn.
    by rewrite (param_union q _ "amplitude" 1.0), (param_union q _ "frequency" 1.0).
  - exists Forcing.step. split; [reflexivity|]. split; [reflexivity|].
    intros q t. unfold Forcing.step. cbn.
    by rewrite (param_union q _ "amplitude" 1.0), (param_union q _ "stepTime" 1.0).
  - exists Forcing.square. split; [reflexivity|]. split; [reflexivity|].
    intros q t. unfold Forcing.square. cbn.
    by rewrite (param_union q _ "amplitude" 1.0), (param_union q _ "frequency" 1.0).
  - exists Forcing.impulse. split; [reflexivity|]. split; [reflexivity|].
    intros q t. unfold Forcing.impulse. cbn.
    by rewrite (param_union q _ "amplitude" 1.0), (param_union q _ "impulseTime" 1.0),
      (param_union q _ "width" 0.01).
Qed.

Lemma force_resolved (name : string) (w : waveform) (p : gmap string float)
    (σ : machine) (t : float) :
  (name, w) ∈ catalog_table ->
  exists f,
    setForcing name (Some p) σ
    = (Ok tt, mkMachine (set_forcing name (Forcing.Own f) (p ∪ waveform_params w) (this σ))
                        (objs σ))
    /\ force_at (snd (setForcing name (Some p) σ)) t = Ok (waveform_value (resolve w p) t).
Proof.
  intros Hw. destruct (catalog_entry name w Hw) as (f & Hf & Hd & Hval).
  exists f. rewrite (setForcing_preset_run name (Some p) σ f _ Hf Hd).
  split; [done|]. unfold force_at. cbn. by rewrite Hval.
Qed.

(** X6: after [setForcing(name, p)] with a catalog name the selection
    holds the caller's parameters over the defaults, and the force at any
    time is the catalog formula at the defaults with the caller's values
    in place of those they name; any other key of [p] is kept in the
    selection and has no effect on the force. *)
Theorem setForcing_overrides (name : string) (w : waveform) (p : gmap string float)
    (σ : machine) (t : float) :
  (name, w) ∈ catalog_table ->
  let σ' := snd (setForcing name (Some p) σ) in
  fst (setForcing name (Some p) σ) = Ok tt
  /\ selection σ' = Selection.make name (p ∪ waveform_params w)
  /\ force_at σ' t = Ok (waveform_value (resolve w p) t).
Proof.
  intros Hw σ'. destruct (force_resolved name w p σ t Hw) as (f & Hrun & Hforce).
  split; [by rewrite Hrun|]. split; [|exact Hforce].
  subst σ'. by rewrite Hrun.
Qed.

(** ** The square wave before time zero *)

(** A product with 1 or -1 is exact. *)
Lemma SFmul_unit (s : bool) (x : spec_float) :
  valid_binary x = true ->
  SFmul prec emax x (S754_finite s 4503599627370496 (-52))
  = match x with
    | S754_zero sx => S754_zero (xorb sx s)
    | S754_infinity sx => S754_infinity (xorb sx s)
    | S754_nan => S754_nan
    | S754_finite sx mx ex => S754_finite (xorb sx s) mx ex
    end.
Proof.
  destruct x as [sx|sx| |sx mx ex]; try done.
  unfold valid_binary. cbn [SpecFloat.valid_binary SFmul]. intros Hb.
  pose proof Hb as Hb'. unfold SpecFloat.bounded, canonical_mantissa in Hb'.
  apply andb_prop in Hb' as [Hc He]. apply Z.eqb_eq in Hc.
  rewrite (Pos.mul_comm mx). cbv beta iota fix delta [Pos.mul].
  unfold binary_round_aux, shr_fexp.
  cbn [Zdigits2 digits2_pos shr_record_of_loc].
  rewrite !Pos2Z.inj_succ.
  replace (fexp prec emax _ - (ex + -52))%Z with 52%Z
    by (replace (Z.succ _ + (ex + -52))%Z with (Z.pos (digits2_pos mx) + ex)%Z by lia;
        rewrite Hc; lia).
  cbn [shr SpecFloat.iter_pos shr_1 orb shr_m loc_of_shr_record round_nearest_even Zdigits2].
  replace (ex + -52 + 52)%Z with ex by lia.
  rewrite Hc, Z.sub_diag. cbn [shr shr_m shr_record_of_loc]. by rewrite He.
Qed.

Lemma mul_one_r (x : float) : x * 1 = x.
Proof.
  apply Prim2SF_inj. rewrite mul_spec. unfold SF64mul.
  change (Prim2SF 1) with (S754_finite false 4503599627370496 (-52)).
  rewrite (SFmul_unit false _ (Prim2SF_valid x)).
  by destruct (Prim2SF x) as [[]|[]| |[] ? ?].
Qed.

Lemma mul_minus_one_r (x : float) : x * -1 = - x.
Proof.
  apply Prim2SF_inj. rewrite mul_spec, opp_spec. unfold SF64mul.
  change (Prim2SF (-1)) with (S754_finite true 4503599627370496 (-52)).
  rewrite (SFmul_unit true _ (Prim2SF_valid x)).
  by destruct (Prim2SF x) as [[]|[]| |[] ? ?].
Qed.

(** X3: the square wave does not alternate before time zero. The phase
    is taken from the remainder, which has the sign of the time: for any
    amplitude and any frequency whose period 1 / frequency is positive,
    the force at every finite time before zero is the amplitude, however
    many periods back; at a time that is not finite (an infinity or NaN)
    it is the opposite of the amplitude, whatever the frequency. From
    time zero on the wave alternates: with the defaults the force is 1 at
    t = 0.25 and at t = 1.25, and -1 at t = 0.75 and at t = 1.75. *)
Theorem square_before_zero (p : gmap string float) (σ : machine) (t : float) :
  let amplitude := default 1.0 (p !! "amplitude") in
  let frequency := default 1.0 (p !! "frequency") in
  let σ' := snd (setForcing "square" (Some p) σ) in
  let σ0 := snd (setForcing "square" None σ) in
  ((0 <? 1 / frequency) = true -> (t <? 0) = true -> is_finite t = true ->
     force_at σ' t = Ok amplitude)
  /\ (is_finite t = false -> force_at σ' t = Ok (- amplitude))
  /\ force_at σ0 0.25 = Ok 1 /\ force_at σ0 0.75 = Ok (-1)
  /\ force_at σ0 1.25 = Ok 1 /\ force_at σ0 1.75 = Ok (-1).
Proof.
  intros amplitude frequency σ' σ0.
  destruct (force_resolved "square" (WSquare 1.0 1.0) p σ t) as (f & _ & Hforce).
  { unfold catalog_table. do 5 apply list_elem_of_further. apply list_elem_of_here. }
  fold σ' in Hforce. rewrite Hforce. cbn [resolve waveform_value].
  fold amplitude frequency.
  split; [|split; [|subst σ0; repeat split; vm_compute; reflexivity]].
  - intros Hperiod Ht Hfin.
    by rewrite (square_phase_before_zero t _ Ht Hfin Hperiod), mul_one_r.
  - intros Hfin. rewrite (rem_not_finite t _ Hfin), div_nan_l.
    change (nan <? 0.5) with false. cbv iota. by rewrite mul_minus_one_r.
Qed.

(** ** An impulse of no width *)

(** No time lies in a window of width zero. *)

Lemma empty_window (T w t : float) :
  (w =? 0) = true -> (T <=? t) && (t <? T + w) = false.
Proof.
  rewrite FloatAxioms.eqb_spec, leb_spec, ltb_spec, add_spec.
  change (Prim2SF 0) with (S754_zero false).
  destruct (Prim2SF w) as [sw|sw| |sw mw ew]; try destruct sw; try done; intros _.
  all: destruct (SFleb (Prim2SF T) (Prim2SF t)) eqn:Hle; [cbn|done].
  all: destruct (Prim2SF T) as [sT|sT| |sT mT eT] eqn:HT; try destruct sT;
         cbn [SF64add SFadd Bool.eqb];
         first [ by apply SFleb_not_ltb
               | by destruct (Prim2SF t) as [[]|[]| |[] ? ?] ].
Qed.

(** X7: an impulse of width 0 (or -0) never fires: the force is 0 at
    every time, whatever the amplitude and the impulse time, and the
    quotient amplitude / width is never taken. *)
Theorem impulse_of_no_width (p : gmap string float) (w : float) (σ : machine) (t : float) :
  p !! "width" = Some w -> (w =? 0) = true ->
  force_at (snd (setForcing "impulse" (Some p) σ)) t = Ok 0.
Proof.
  intros Hp Hw.
  destruct (force_resolved "impulse" (WImpulse 1.0 1.0 0.01) p σ t) as (f & _ & ->).
  { unfold catalog_table. do 6 apply list_elem_of_further. apply list_elem_of_here. }
  cbn. rewrite Hp. cbn. by rewrite empty_window.
Qed.
End ForcingFacts.

(** ** NaN parameters *)

Lemma opp_nan : (- nan)%float = nan.
Proof. reflexivity. Qed.

(** A derivative function whose acceleration is NaN everywhere sends any
    state to NaN position and velocity in one step. *)
Lemma rk4_formula_nan (y v t dt : float) (deriv : float -> float -> float -> Deriv) :
  (forall y v t, dydt (deriv y v t) = v) -> (forall y v t, dvdt (deriv y v t) = nan) ->
  Integrators.y (rk4_formula y v t deriv dt) = nan
  /\ Integrators.v (rk4_formula y v t deriv dt) = nan.
Proof.
  intros Hy Hv. unfold rk4_formula, over, plus, scaled. cbn.
  rewrite !Hy, !Hv. by nan_simpl.
Qed.

Section NanFacts.
Context {host : Host}.

Lemma derivative_nan (s : MassSpringSystem) (f : float -> gmap string float -> float)
    (y v t : float) :
  m s = nan \/ b s = nan \/ k s = nan -> dvdt (derivative s f y v t) = nan.
Proof.
  unfold derivative. cbn. intros [->|[->| ->]]; rewrite ?opp_nan; by nan_simpl.
Qed.

(** X12: a NaN passes every check. Neither the constructor nor
    [setParameters] ever rejects a field for being NaN: the message
    thrown never names a field that was supplied as NaN, and a
    configuration of three NaN is accepted and stored. With a NaN among
    the three parameters a step leaves NaN for position and velocity,
    whatever the state, the force and [dt]. *)
Theorem nan_parameters_are_accepted (σ : machine) :
  (forall config heap msg,
     constructor config heap = Throw msg ->
     (msg = "Mass must be positive" -> Config.m config <> Some nan)
     /\ (msg = "Damping coefficient must be non-negative" -> Config.b config <> Some nan)
     /\ (msg = "Spring constant must be non-negative" -> Config.k config <> Some nan))
  /\ (forall p msg,
        fst (setParameters p σ) = Throw msg ->
        (msg = "Mass must be positive" -> Partial.m p <> Some nan)
        /\ (msg = "Damping coefficient must be non-negative" -> Partial.b p <> Some nan)
        /\ (msg = "Spring constant must be non-negative" -> Partial.k p <> Some nan))
  /\ (forall y0 v0 heap, exists σ1,
        constructor (Config.make (Some nan) (Some nan) (Some nan) y0 v0) heap = Ok σ1
        /\ parameters σ1 = Parameters.make nan nan nan)
  /\ (fst (setParameters (Partial.make (Some nan) (Some nan) (Some nan)) σ) = Ok tt
      /\ parameters (snd (setParameters (Partial.make (Some nan) (Some nan) (Some nan)) σ))
         = Parameters.make nan nan nan)
  /\ (forall s f dt,
        current σ = Some s -> forcingFn (this σ) = Forcing.Own f ->
        m (this σ) = nan \/ b (this σ) = nan \/ k (this σ) = nan ->
        exists s', current (snd (step dt σ)) = Some s' /\ y s' = nan /\ v s' = nan).
Proof.
  split; [|split; [|split; [|split]]].
  - intros [cm cb ck cy cv] heap msg. unfold constructor. cbn.
    intros Hthrow. repeat split; intros -> ->; cbn in Hthrow;
      repeat case_match; simplify_eq.
  - intros [pm pb pk] msg. rewrite setParameters_run. cbn.
    unfold mass_ok, damping_ok, spring_ok. cbn.
    intros Hthrow. repeat split; intros -> ->; cbn in Hthrow;
      repeat case_match; simplify_eq.
  - intros y1 v1 heap. eexists. split; reflexivity.
  - rewrite setParameters_run. done.
  - intros s f dt Hcur Hf Hnan.
    rewrite (step_preset σ dt s f Hcur Hf). eexists. split.
    + unfold current. cbn. apply lookup_snoc_old, lookup_snoc.
    + apply rk4_formula_nan; [done|]. intros. by apply derivative_nan.
Qed.

(** ** The derived properties *)

(** X18: [getSystemProperties] returns f0 = omega0 / (2 pi), T0 = 1 / f0
    and fD = omegaD / (2 pi); the regime is one of the three names;
    omegaD is omega0 sqrt(1 - zeta zeta) in the underdamped regime and 0
    otherwise. Without a spring (k = 0, m > 0) omega0 and f0 are 0 and
    the period T0 is +infinity; when the discriminant is NaN the regime
    is 'underdamped'. *)
Theorem getSystemProperties_derived (σ : machine) :
  let m := m (this σ) in
  let b := b (this σ) in
  let k := k (this σ) in
  exists p,
    getSystemProperties σ = (Ok p, σ)
    /\ Properties.f0 p = Properties.omega0 p / (2 * Math_PI)
    /\ Properties.T0 p = 1 / Properties.f0 p
    /\ Properties.fD p = Properties.omegaD p / (2 * Math_PI)
    /\ Properties.regime p ∈ ["critical"; "overdamped"; "underdamped"]
    /\ (Properties.regime p = "underdamped" ->
          Properties.omegaD p
          = Properties.omega0 p * Math_sqrt (1 - Properties.zeta p * Properties.zeta p))
    /\ (Properties.regime p <> "underdamped" ->
          Properties.omegaD p = 0 /\ Properties.fD p = 0)
    /\ (k = 0 -> (0 <? m) = true ->
          Properties.omega0 p = 0 /\ Properties.f0 p = 0 /\ Properties.T0 p = infinity)
    /\ (b * b - 4 * m * k = nan -> Properties.regime p = "underdamped").
Proof.
  intros m0 b0 k0.
  eexists. split; [unfold getSystemProperties; unfold_method; reflexivity|].
  cbn [Properties.omega0 Properties.f0 Properties.T0 Properties.zeta Properties.regime
       Properties.omegaD Properties.fD Properties.Q].
  fold m0 b0 k0.
  split; [done|]. split; [done|]. split; [done|].
  set (d := b0 * b0 - 4 * m0 * k0).
  split; [|split; [|split; [|split]]].
  - rewrite !elem_of_cons.
    destruct (abs d <? 1e-10); [by left|]. destruct (0 <? d); auto.
  - destruct (abs d <? 1e-10); [done|]. by destruct (0 <? d).
  - destruct (abs d <? 1e-10); [done|]. by destruct (0 <? d).
  - intros -> Hm. apply ltb_zero_positive in Hm.
    rewrite (zero_div_positive _ Hm). done.
  - intros ->. done.
Qed.

(** ** Snapshots *)

(** X19: every [getState] call returns a new object: two calls in a row
    return two different objects, both different from the internal state
    object and both holding the current state; the receiver and every
    existing object are unchanged, and writing into one snapshot changes
    neither the internal state nor the other snapshot. *)
Theorem getState_snapshots (σ : machine) (s : State) :
  current σ = Some s ->
  exists l1 l2 σ1 σ2,
    getState σ = (Ok l1, σ1) /\ getState σ1 = (Ok l2, σ2)
    /\ l1 <> l2 /\ l1 <> state (this σ) /\ l2 <> state (this σ)
    /\ objs σ2 !! l1 = Some s /\ objs σ2 !! l2 = Some s
    /\ this σ2 = this σ
    /\ (forall l o, objs σ !! l = Some o -> objs σ2 !! l = Some o)
    /\ (forall o, current (mutate l1 o σ2) = Some s
                  /\ objs (mutate l1 o σ2) !! l2 = Some s).
Proof.
  intros Hcur.
  pose proof (lookup_lt_Some _ _ _ Hcur) as Hlt.
  do 4 eexists. split; [by apply getState_copy|]. split.
  { apply getState_copy. unfold current. cbn. by apply lookup_snoc_old. }
  cbn [this objs].
  assert (Hlen : length (objs σ ++ [s]) = S (length (objs σ)))
    by (rewrite length_app; cbn; lia).
  split; [lia|]. split; [lia|]. split; [lia|].
  split; [apply lookup_snoc_old, lookup_snoc|].
  split; [apply lookup_snoc|].
  split; [done|].
  split; [intros l o Hl; by do 2 apply lookup_snoc_old|].
  intros o. unfold current, mutate. cbn [this objs].
  rewrite !list_lookup_insert_ne by lia.
  split; [by do 2 apply lookup_snoc_old|apply lookup_snoc].
Qed.
End NanFacts.

(** ** The free particle *)

Lemma free_acceleration (m y v : float) :
  (0 <? m) = true -> is_finite y = true -> is_finite v = true ->
  (- 0 * v - 0 * y + 0) / m = 0.
Proof.
  unfold is_finite. rewrite ltb_spec. intros Hm Hy Hv.
  apply Prim2SF_inj.
  rewrite div_spec, add_spec, sub_spec, !mul_spec.
  change (Prim2SF (- 0)) with (S754_zero true).
  change (Prim2SF 0) with (S754_zero false) in *.
  destruct (Prim2SF m) as [[]|[]| |[] mm em], (Prim2SF y) as [[]|[]| |[] my ey],
    (Prim2SF v) as [[]|[]| |[] mv ev]; cbn in *; done.
Qed.

Section FreeFacts.
Context {host : Host}.

(** X20: Newton's first law, exactly. With no spring, no damping and no
    force, a step of finite size on a finite state whose stage positions
    stay finite leaves the velocity bit for bit as it is, and moves the
    position by [dt] times the combined slope (v + 2 v + 2 v + v) / 6. *)
Theorem free_particle_keeps_velocity (σ : machine) (s : State)
    (f : float -> gmap string float -> float) (dt : float) :
  current σ = Some s ->
  forcingFn (this σ) = Forcing.Own f ->
  (forall t', f t' (forcingParams (this σ)) = 0) ->
  b (this σ) = 0 -> k (this σ) = 0 -> (0 <? m (this σ)) = true ->
  Forall (fun x => is_finite x = true)
    [y s; v s; dt; y s + dt * (0.5 * v s); y s + dt * v s] ->
  not_minus_zero (v s) ->
  current (snd (step dt σ))
  = Some {| y := y s + dt * ((v s + 2 * v s + 2 * v s + v s) / 6);
            v := v s;
            t := t s + dt |}.
Proof.
  intros Hcur Hf Hzero Hb Hk Hm Hfin Hv.
  apply Forall_cons in Hfin as [Hfy Hfin]. apply Forall_cons in Hfin as [Hfv Hfin].
  apply Forall_cons in Hfin as [Hfdt Hfin]. apply Forall_cons in Hfin as [Hf2 Hfin].
  apply Forall_cons in Hfin as [Hf4 _].
  rewrite (step_preset σ dt s f Hcur Hf). unfold current. cbn [snd this objs set_state state].
  rewrite (lookup_snoc_old _ _ _ _ (lookup_snoc _ _)). f_equal.
  destruct s as [y0 v0 t0]. cbn in *.
  unfold rk4_formula, derivative, over, plus, scaled. cbn.
  rewrite Hb, Hk, !Hzero.
  rewrite (free_acceleration _ y0 v0 Hm Hfy Hfv).
  change (0.5 * 0) with 0. rewrite !(add_zero_slope v0 dt Hfdt Hv).
  rewrite !(free_acceleration _ _ v0 Hm Hf2 Hfv).
  change (0.5 * 0) with 0. rewrite !(add_zero_slope v0 dt Hfdt Hv).
  rewrite ?(free_acceleration _ _ v0 Hm Hf2 Hfv).
  rewrite ?(add_zero_slope v0 dt Hfdt Hv).
  rewrite (free_acceleration _ _ v0 Hm Hf4 Hfv).
  change ((0 + 2 * 0 + 2 * 0 + 0) / 6) with 0.
  by rewrite (add_zero_slope v0 dt Hfdt Hv).
Qed.
End FreeFacts.

(** ** Replay *)

Section ReplayFacts.
Context {host : Host}.

Lemma same_system_fields (σ1 σ2 : machine) :
  same_system σ1 σ2 -> exists l, this σ1 = set_state l (this σ2).
Proof.
  intros [_ Hthis]. exists (state (this σ1)). revert Hthis.
  destruct (this σ1), (this σ2). cbn. intros Hthis. by simplify_eq.
Qed.

Lemma perform_same (c : operation) (σ1 σ2 : machine) :
  same_system σ1 σ2 -> same_system (perform c σ1) (perform c σ2).
Proof.
  intros Hsame. destruct (same_system_fields _ _ Hsame) as [l Hl].
  destruct Hsame as [Hcur Hthis]. unfold same_system.
  destruct c as [dt|p|name params]; cbn [perform].
  - destruct (current σ2) as [s|] eqn:Hcur2.
    + assert (Hd : rk4Step s (computeDerivatives (this σ1)) dt
                   = rk4Step s (computeDerivatives (this σ2)) dt) by (by rewrite Hl).
      destruct (rk4Step s (computeDerivatives (this σ2)) dt) as [next|msg] eqn:Hnext.
      * rewrite (step_run _ _ _ _ Hcur Hd), (step_run _ _ _ _ Hcur2 Hnext).
        unfold current. cbn. split; [|by rewrite Hl].
        rewrite (lookup_snoc_old (objs σ1 ++ [next]) next _ next (lookup_snoc _ _)).
        by rewrite (lookup_snoc_old (objs σ2 ++ [next]) next _ next (lookup_snoc _ _)).
      * rewrite (step_throws _ _ _ _ Hcur Hd), (step_throws _ _ _ _ Hcur2 Hnext).
        split; cbn; congruence.
    + rewrite (step_dangling _ _ Hcur), (step_dangling _ _ Hcur2).
      split; cbn; congruence.
  - rewrite !setParameters_state, !setParameters_run. cbn. by rewrite Hl.
  - rewrite !setForcing_state. split; [done|].
    unfold setForcing. destruct (Forcing.get Forcing.presets name); cbn; by rewrite Hl.
Qed.

Lemma run_same (calls : list operation) (σ1 σ2 : machine) :
  same_system σ1 σ2 -> same_system (run calls σ1) (run calls σ2).
Proof.
  revert σ1 σ2. induction calls as [|c calls IH]; intros σ1 σ2 Hsame; [done|].
  rewrite !run_cons. by apply IH, perform_same.
Qed.

Lemma steps_this (dts : list float) (σ : machine) :
  exists l, this (run (Step <$> dts) σ) = set_state l (this σ).
Proof.
  revert σ. induction dts as [|dt dts IH]; intros σ.
  - exists (state (this σ)). cbn. by destruct (this σ).
  - rewrite fmap_cons, run_cons. destruct (IH (perform (Step dt) σ)) as [l ->].
    cbn [perform]. destruct (step_this σ dt) as [l' ->]. by exists l.
Qed.

(** X21: after any steps, [reset()] puts the system back where the
    constructor left it: whatever calls follow, they lead to the same
    state, parameters, forcing selection and energy, bit for bit, as the
    same calls on the newly constructed system. *)
Theorem replay_after_reset (config : Config.t) (heap : list State) (σ0 : machine)
    (dts : list float) (calls : list operation) :
  constructor config heap = Ok σ0 ->
  let σ1 := snd (reset (run (Step <$> dts) σ0)) in
  current (run calls σ1) = current (run calls σ0)
  /\ parameters (run calls σ1) = parameters (run calls σ0)
  /\ selection (run calls σ1) = selection (run calls σ0)
  /\ fst (getEnergy (run calls σ1)) = fst (getEnergy (run calls σ0)).
Proof.
  intros Hnew σ1.
  assert (Hsame : same_system σ1 σ0).
  { subst σ1. rewrite reset_run. unfold same_system, current. cbn.
    rewrite lookup_snoc.
    destruct (run_initial (Step <$> dts) σ0) as [-> ->].
    destruct (steps_this dts σ0) as [l ->].
    rewrite (constructor_ok _ _ _ Hnew). cbn. by rewrite lookup_snoc. }
  apply (run_same calls) in Hsame.
  destruct (same_system_fields _ _ Hsame) as [l Hl]. destruct Hsame as [Hcur _].
  split; [done|].
  unfold parameters, selection. rewrite Hl. split; [done|]. split; [done|].
  assert (Hwf : wf (run calls σ0))
    by (apply run_keeps; [apply perform_wf|by eapply constructor_wf]).
  destruct Hwf as [s Hs].
  rewrite (getEnergy_run (run calls σ0) s Hs).
  rewrite (getEnergy_run (run calls σ1) s) by congruence.
  cbn. by rewrite Hl.
Qed.
End ReplayFacts.

(** ** The order of binary64 *)

Ltac compare_cases :=
  repeat match goal with
  | |- context [Pos.compare_cont Eq ?a ?b] =>
      change (Pos.compare_cont Eq a b) with (a ?= b)%positive
  | H : context [Pos.compare_cont Eq ?a ?b] |- _ =>
      change (Pos.compare_cont Eq a b) with (a ?= b)%positive in H
  end;
  repeat match goal with
  | |- context [(?a ?= ?b)%Z] => destruct (Z.compare_spec a b)
  | H : context [(?a ?= ?b)%Z] |- _ => destruct (Z.compare_spec a b)
  | |- context [(?a ?= ?b)%positive] => destruct (Pos.compare_spec a b)
  | H : context [(?a ?= ?b)%positive] |- _ => destruct (Pos.compare_spec a b)
  end.

Lemma SFltb_leb_trans (x y z : spec_float) :
  SFltb x y = true -> SFleb y z = true -> SFleb x z = true.
Proof.
  unfold SFltb, SFleb.
  destruct x as [[]|[]| |[] mx ex], y as [[]|[]| |[] my ey], z as [[]|[]| |[] mz ez];
    cbn; try done; compare_cases; cbn; intros; subst; try done; try lia.
Qed.

Lemma SFleb_total (x y : spec_float) :
  x <> S754_nan -> y <> S754_nan -> SFltb y x = false -> SFleb x y = true.
Proof.
  unfold SFltb, SFleb.
  destruct x as [[]|[]| |[] mx ex], y as [[]|[]| |[] my ey];
    cbn; try done; compare_cases; cbn; intros; subst; try done; try lia.
Qed.

Lemma SFleb_refl (x : spec_float) : x <> S754_nan -> SFleb x x = true.
Proof.
  unfold SFleb.
  destruct x as [[]|[]| |[] mx ex]; cbn; try done;
    rewrite Z.compare_refl, ?Pos.compare_cont_refl; done.
Qed.

Lemma SFleb_trans (x y z : spec_float) :
  SFleb x y = true -> SFleb y z = true -> SFleb x z = true.
Proof.
  unfold SFleb.
  destruct x as [[]|[]| |[] mx ex], y as [[]|[]| |[] my ey], z as [[]|[]| |[] mz ez];
    cbn; try done; compare_cases; cbn; intros; subst; try done; try lia.
Qed.

Lemma SFltb_leb (x y : spec_float) : SFltb x y = true -> SFleb x y = true.
Proof. unfold SFltb, SFleb. by destruct (SFcompare x y) as [[]|]. Qed.

Lemma SFleb_NaN (x y : spec_float) : SFleb x y = true -> x <> S754_nan /\ y <> S754_nan.
Proof. by destruct x as [[]|[]| |[] mx ex], y as [[]|[]| |[] my ey]. Qed.

Lemma is_NaN_false (x : float) : is_NaN x = false <-> Prim2SF x <> S754_nan.
Proof. unfold is_NaN. by destruct (Prim2SF x). Qed.

Lemma is_NaN_true (x : float) : is_NaN x = true <-> x = nan.
Proof.
  unfold is_NaN. split.
  - intros Hx. apply Prim2SF_inj. by destruct (Prim2SF x).
  - by intros ->.
Qed.

(** ** Math.min and Math.max *)

Lemma min_from_NaN (lowest : float) (xs : list float) (x : float) :
  x ∈ xs -> is_NaN x = true -> min_from lowest xs = nan.
Proof.
  intros Hin Hx. revert lowest. induction xs as [|number rest IH]; intros lowest.
  - by apply elem_of_nil in Hin.
  - cbn. apply elem_of_cons in Hin as [<-|Hin]; [by rewrite Hx|].
    destruct (is_NaN number); [done|]. by repeat case_match; apply IH.
Qed.

Lemma max_from_NaN (highest : float) (xs : list float) (x : float) :
  x ∈ xs -> is_NaN x = true -> max_from highest xs = nan.
Proof.
  intros Hin Hx. revert highest. induction xs as [|number rest IH]; intros highest.
  - by apply elem_of_nil in Hin.
  - cbn. apply elem_of_cons in Hin as [<-|Hin]; [by rewrite Hx|].
    destruct (is_NaN number); [done|]. by repeat case_match; apply IH.
Qed.

Lemma min_from_spec (lowest : float) (xs : list float) :
  is_NaN lowest = false -> (forall x, x ∈ xs -> is_NaN x = false) ->
  (min_from lowest xs <=? lowest) = true
  /\ (forall x, x ∈ xs -> (min_from lowest xs <=? x) = true)
  /\ (min_from lowest xs = lowest \/ min_from lowest xs ∈ xs).
Proof.
  revert lowest. induction xs as [|number rest IH]; intros lowest Hl Hxs.
  - cbn. split; [|split; [|by left]].
    + rewrite leb_spec. by apply SFleb_refl, is_NaN_false.
    + intros x Hx. by apply elem_of_nil in Hx.
  - assert (Hn : is_NaN number = false) by (apply Hxs, list_elem_of_here).
    assert (Hrest : forall x, x ∈ rest -> is_NaN x = false)
      by (intros x Hx; by apply Hxs, list_elem_of_further).
    cbn. rewrite Hn.
    destruct (is_minus_zero number && is_plus_zero lowest) eqn:Hz;
      [|destruct (number <? lowest) eqn:Hlt].
    + destruct (IH number Hn Hrest) as (H1 & H2 & H3).
      apply andb_prop in Hz as [Hz1 Hz2].
      split; [|split].
      * revert H1 Hz1 Hz2. unfold is_minus_zero, is_plus_zero. rewrite !leb_spec.
        destruct (Prim2SF number) as [[]|[]| |[] ? ?]; try done.
        destruct (Prim2SF lowest) as [[]|[]| |[] ? ?]; done.
      * intros x [->|Hx]%elem_of_cons; auto.
      * right. destruct H3 as [->|H3]; [apply list_elem_of_here|by apply list_elem_of_further].
    + destruct (IH number Hn Hrest) as (H1 & H2 & H3).
      split; [|split].
      * rewrite leb_spec in *. rewrite ltb_spec in Hlt.
        eapply SFleb_trans; [exact H1|by apply SFltb_leb].
      * intros x [->|Hx]%elem_of_cons; auto.
      * right. destruct H3 as [->|H3]; [apply list_elem_of_here|by apply list_elem_of_further].
    + destruct (IH lowest Hl Hrest) as (H1 & H2 & H3).
      split; [done|]. split.
      * intros x [->|Hx]%elem_of_cons; [|auto].
        rewrite leb_spec in *. rewrite ltb_spec in Hlt.
        eapply SFleb_trans; [exact H1|].
        apply SFleb_total; [by apply is_NaN_false..|done].
      * destruct H3 as [->|H3]; [by left|right; by apply list_elem_of_further].
Qed.

Lemma max_from_spec (highest : float) (xs : list float) :
  is_NaN highest = false -> (forall x, x ∈ xs -> is_NaN x = false) ->
  (highest <=? max_from highest xs) = true
  /\ (forall x, x ∈ xs -> (x <=? max_from highest xs) = true)
  /\ (max_from highest xs = highest \/ max_from highest xs ∈ xs).
Proof.
  revert highest. induction xs as [|number rest IH]; intros highest Hh Hxs.
  - cbn. split; [|split; [|by left]].
    + rewrite leb_spec. by apply SFleb_refl, is_NaN_false.
    + intros x Hx. by apply elem_of_nil in Hx.
  - assert (Hn : is_NaN number = false) by (apply Hxs, list_elem_of_here).
    assert (Hrest : forall x, x ∈ rest -> is_NaN x = false)
      by (intros x Hx; by apply Hxs, list_elem_of_further).
    cbn. rewrite Hn.
    destruct (is_plus_zero number && is_minus_zero highest) eqn:Hz;
      [|destruct (highest <? number) eqn:Hlt].
    + destruct (IH number Hn Hrest) as (H1 & H2 & H3).
      apply andb_prop in Hz as [Hz1 Hz2].
      split; [|split].
      * revert H1 Hz1 Hz2. unfold is_minus_zero, is_plus_zero. rewrite !leb_spec.
        destruct (Prim2SF number) as [[]|[]| |[] ? ?]; try done.
        destruct (Prim2SF highest) as [[]|[]| |[] ? ?]; done.
      * intros x [->|Hx]%elem_of_cons; auto.
      * right. destruct H3 as [->|H3]; [apply list_elem_of_here|by apply list_elem_of_further].
    + destruct (IH number Hn Hrest) as (H1 & H2 & H3).
      split; [|split].
      * rewrite leb_spec in *. rewrite ltb_spec in Hlt.
        eapply SFleb_trans; [by apply SFltb_leb|exact H1].
      * intros x [->|Hx]%elem_of_cons; auto.
      * right. destruct H3 as [->|H3]; [apply list_elem_of_here|by apply list_elem_of_further].
    + destruct (IH highest Hh Hrest) as (H1 & H2 & H3).
      split; [done|]. split.
      * intros x [->|Hx]%elem_of_cons; [|auto].
        rewrite leb_spec in *. rewrite ltb_spec in Hlt.
        eapply SFleb_trans; [|exact H1].
        apply SFleb_total; [by apply is_NaN_false..|done].
      * destruct H3 as [->|H3]; [by left|right; by apply list_elem_of_further].
Qed.

Lemma above_infinity (x : float) : (infinity <=? x) = true -> x = infinity.
Proof.
  rewrite leb_spec. intros Hx. apply Prim2SF_inj. revert Hx.
  change (Prim2SF infinity) with (S754_infinity false).
  by destruct (Prim2SF x) as [[]|[]| |[] ? ?].
Qed.

Lemma below_neg_infinity (x : float) : (x <=? neg_infinity) = true -> x = neg_infinity.
Proof.
  rewrite leb_spec. intros Hx. apply Prim2SF_inj. revert Hx.
  change (Prim2SF neg_infinity) with (S754_infinity true).
  by destruct (Prim2SF x) as [[]|[]| |[] ? ?].
Qed.

(** Of numbers none of which is NaN, [Math.min] and [Math.max] return
    one of them, below and above all of them. *)
Lemma extremes (xs : list float) (x : float) :
  x ∈ xs -> (forall x, x ∈ xs -> is_NaN x = false) ->
  Math_min xs ∈ xs /\ Math_max xs ∈ xs
  /\ (Math_min xs <=? x) = true /\ (x <=? Math_max xs) = true.
Proof.
  intros Hx Hxs. unfold Math_min, Math_max.
  destruct (min_from_spec infinity xs eq_refl Hxs) as (_ & Hmin & Hmin').
  destruct (max_from_spec neg_infinity xs eq_refl Hxs) as (_ & Hmax & Hmax').
  split; [|split; [|by auto]].
  - destruct Hmin' as [Hi|]; [|done]. specialize (Hmin x Hx).
    rewrite Hi in *. by rewrite (above_infinity x Hmin) in Hx.
  - destruct Hmax' as [Hi|]; [|done]. specialize (Hmax x Hx).
    rewrite Hi in *. by rewrite (below_neg_infinity x Hmax) in Hx.
Qed.

(** ** SpringAnimator.getStats *)

(** X22: for every configuration and state, [getStats] reports the mass
    at height / 2 + y * scale and a spring length of that minus the
    anchor's 50; [isCompressed] and [isExtended] never hold together; at
    y = 0 or -0 neither holds and [isAtEquilibrium] does; for a NaN
    position all three flags are false and the mass position is NaN; and
    y = 0 maps to the centre height / 2 for every finite scale. *)
Theorem spring_stats (config : option SpringAnimator.Config.t) (s : State) :
  let a := SpringAnimator.constructor config in
  let st := SpringAnimator.getStats a s in
  SpringAnimator.Stats.massY st
    = SpringAnimator.height a / 2 + y s * SpringAnimator.scale a
  /\ SpringAnimator.Stats.springLength st = SpringAnimator.Stats.massY st - 50
  /\ SpringAnimator.Stats.isCompressed st && SpringAnimator.Stats.isExtended st = false
  /\ ((y s =? 0) = true ->
        SpringAnimator.Stats.isCompressed st = false
        /\ SpringAnimator.Stats.isExtended st = false
        /\ SpringAnimator.Stats.isAtEquilibrium st = true)
  /\ (y s = nan ->
        SpringAnimator.Stats.isCompressed st = false
        /\ SpringAnimator.Stats.isExtended st = false
        /\ SpringAnimator.Stats.isAtEquilibrium st = false
        /\ SpringAnimator.Stats.massY st = nan)
  /\ (y s = 0 -> is_finite (SpringAnimator.scale a) = true ->
      not_minus_zero (SpringAnimator.height a / 2) ->
        SpringAnimator.Stats.massY st = SpringAnimator.height a / 2
        /\ SpringAnimator.Stats.springLength st = SpringAnimator.height a / 2 - 50).
Proof.
  intros a st. subst st. unfold SpringAnimator.getStats, SpringAnimator.physicsToCanvasY.
  cbn [SpringAnimator.Stats.massY SpringAnimator.Stats.springLength
       SpringAnimator.Stats.isCompressed SpringAnimator.Stats.isExtended
       SpringAnimator.Stats.isAtEquilibrium].
  change (SpringAnimator.equilibriumY a) with (SpringAnimator.height a / 2).
  change (SpringAnimator.anchorY a) with 50.
  split; [done|]. split; [done|]. split; [|split; [|split]].
  - rewrite !ltb_spec. destruct (SFltb (Prim2SF (y s)) _) eqn:Hlt; [|done].
    by rewrite (SFltb_asym _ _ Hlt).
  - rewrite FloatAxioms.eqb_spec, !ltb_spec. unfold Math_abs. rewrite abs_spec.
    change (Prim2SF 0) with (S754_zero false).
    change (Prim2SF 0.001) with (S754_finite false 4611686018427388 (-62)).
    by destruct (Prim2SF (y s)) as [[]|[]| |[] ? ?].
  - intros ->. by nan_simpl.
  - intros -> Hfin Hnz.
    rewrite (float_mul_comm 0), (add_zero_slope _ _ Hfin Hnz). done.
Qed.

(** ** PhasePortrait.getStats *)

(** X23: [getStats] of no data reports 0 points and ranges 0, with no
    minimum or maximum set, and spreads nothing. Of data it spreads the
    positions and the velocities into [Math.min] and [Math.max]: with
    more points than the engine takes as arguments it throws a
    RangeError; within that bound it reports the number of points and,
    for positions and velocities alike, [Math.min], [Math.max] and their
    difference. When no value is NaN the minimum and the maximum are
    values of the data, below and above every value; one NaN makes
    minimum, maximum and range NaN. *)
Theorem portrait_stats (max_arguments : nat) (data : list PhasePortrait.Point) :
  let ys := map PhasePortrait.y data in
  let vs := map PhasePortrait.v data in
  (data = [] ->
     PhasePortrait.getStats max_arguments data
     = Ok (PhasePortrait.Stats.make 0 None None 0 None None 0))
  /\ (data <> [] -> (max_arguments < length data)%nat ->
        PhasePortrait.getStats max_arguments data = Throw "RangeError")
  /\ (data <> [] -> (length data <= max_arguments)%nat ->
        PhasePortrait.getStats max_arguments data
        = Ok (PhasePortrait.Stats.make (length data)
                (Some (Math_min ys)) (Some (Math_max ys)) (Math_max ys - Math_min ys)
                (Some (Math_min vs)) (Some (Math_max vs)) (Math_max vs - Math_min vs)))
  /\ (forall st, PhasePortrait.getStats max_arguments data = Ok st ->
        PhasePortrait.Stats.dataPoints st = length data)
  /\ (forall xs x, x ∈ xs -> (forall x, x ∈ xs -> is_NaN x = false) ->
        Math_min xs ∈ xs /\ Math_max xs ∈ xs
        /\ (Math_min xs <=? x) = true /\ (x <=? Math_max xs) = true)
  /\ (forall xs x, x ∈ xs -> is_NaN x = true ->
        Math_min xs = nan /\ Math_max xs = nan /\ Math_max xs - Math_min xs = nan).
Proof.
  intros ys vs.
  assert (Hrun : data <> [] ->
            PhasePortrait.getStats max_arguments data
            = if decide (length data <= max_arguments)%nat
              then Ok (PhasePortrait.Stats.make (length data)
                         (Some (Math_min ys)) (Some (Math_max ys))
                         (Math_max ys - Math_min ys)
                         (Some (Math_min vs)) (Some (Math_max vs))
                         (Math_max vs - Math_min vs))
              else Throw "RangeError").
  { intros Hdata. unfold PhasePortrait.getStats, PhasePortrait.spread_call.
    rewrite !length_map. destruct data; [done|]. cbn [length].
    rewrite decide_False by lia. fold ys vs.
    by destruct (decide (S (length data) <= max_arguments)%nat). }
  split; [by intros ->|]. split; [|split; [|split; [|split]]].
  - intros Hdata Hlong. rewrite (Hrun Hdata). by rewrite decide_False by lia.
  - intros Hdata Hshort. rewrite (Hrun Hdata). by rewrite decide_True.
  - intros st. destruct data as [|point data]; [by intros [= <-]|].
    rewrite (Hrun ltac:(done)). destruct (decide _); [by intros [= <-]|done].
  - apply extremes.
  - intros xs x Hx Hnan. unfold Math_min, Math_max.
    rewrite (min_from_NaN _ _ _ Hx Hnan), (max_from_NaN _ _ _ Hx Hnan). done.
Qed.

(** ** The sample session *)

Lemma sample_calls_own : own_names sample_calls.
Proof.
  intros name params Hin. unfold sample_calls in Hin.
  rewrite !elem_of_cons, elem_of_nil in Hin.
  destruct Hin as [H|[H|[H|[H|[H|[]]]]]]; simplify_eq; compute_done.
Qed.

(** ** State objects are values *)

Section ObjectFacts.
Context {host : Host}.

(** X24: no call ever writes into an existing state object. Whatever
    object a location holds (a snapshot handed out by [getState] or
    [step], or the internal state object itself), it holds the same after
    any sequence of [step], [setParameters], [setForcing], [reset] and
    [getState] calls: [step] and [reset] install new objects. *)
Theorem objects_are_never_mutated (σ : machine) (calls : list operation)
    (l : nat) (o : State) :
  objs σ !! l = Some o ->
  objs (run calls σ) !! l = Some o
  /\ objs (snd (reset (run calls σ))) !! l = Some o
  /\ objs (snd (getState (run calls σ))) !! l = Some o.
Proof.
  intros Hl.
  assert (Hrun : objs (run calls σ) !! l = Some o).
  { apply (run_keeps (fun σ => objs σ !! l = Some o)); [|done].
    intros c σ' Hσ'. destruct (perform_heap c σ') as [more ->].
    by apply lookup_app_l_Some. }
  split; [done|]. split.
  - rewrite reset_run. cbn. by apply lookup_snoc_old.
  - unfold getState. unfold_method.
    destruct (objs (run calls σ) !! state (this (run calls σ))); cbn; [|done].
    by apply lookup_snoc_old.
Qed.
End ObjectFacts.

(** ** The windows of step and impulse *)

Section WindowFacts.
Context {host : Host}.




End WindowFacts.

(** ** The theorems at concrete inputs *)

Lemma step_rk4_witness :
  let next := rk4_formula 1.0 0.0 0.0 (derivative (this default_system) Forcing.none) 0.01 in
  exists r σ',
    step (host := sample_host) 0.01 default_system = (Ok r, σ')
    /\ current σ' = Some next
    /\ t next = 0.0 + 0.01
    /\ objs σ' !! r = Some next
    /\ r <> state (this σ')
    /\ (forall o : State, exists l σ'',
          getState (mutate r o σ') = (Ok l, σ'') /\ objs σ'' !! l = Some next)
    /\ this σ' = set_state (state (this σ')) (this default_system).
Proof.
  exact (step_rk4 (host := sample_host) default_system 0.01
           {| y := 1.0; v := 0.0; t := 0.0 |} Forcing.none eq_refl eq_refl).
Defined.

Lemma reset_restores_witness :
  let σ := run (host := sample_host)
             [Step 0.01; SetParameters (Partial.make (Some 2) (Some (-1)) None);
              SetForcing "sine" None; Step 0.01]
             default_system in
  exists σ',
    reset σ = (Ok tt, σ')
    /\ current σ' = Some {| y := 1.0; v := 0.0; t := 0 |}
    /\ parameters σ' = parameters σ
    /\ selection σ' = selection σ
    /\ forcingFn (this σ') = forcingFn (this σ)
    /\ y0 (this σ') = y0 (this σ) /\ v0 (this σ') = v0 (this σ)
    /\ (forall l o, objs σ !! l = Some o -> objs σ' !! l = Some o).
Proof.
  exact (reset_restores (host := sample_host) Config.empty [] default_system
           [Step 0.01; SetParameters (Partial.make (Some 2) (Some (-1)) None);
            SetForcing "sine" None; Step 0.01]
           eq_refl).
Defined.


Lemma shm_accuracy_witness :
  exists s,
    current (run (host := sample_host) (replicate 100 (Step 0.01)) shm) = Some s
    /\ is_finite (y s) = true /\ is_finite (t s) = true
    /\ (Rabs (number_value (y s) - cos (number_value (t s))) < 1 / 1000)%R
    /\ (100%nat = 6290%nat -> (10 * (2 * PI) < number_value (t s))%R).
Proof.
  exact (shm_accuracy (host := sample_host) [] shm 100 eq_refl
           (proj1 (Nat.leb_le 100 6290) eq_refl)).
Defined.

Lemma setParameters_sequential_witness :
  fst (setParameters (Partial.make (Some 2) (Some (-1)) None) default_system)
    = Throw "Damping coefficient must be non-negative"
  /\ parameters (snd (setParameters (Partial.make (Some 2) (Some (-1)) None) default_system))
     = Parameters.make 2 0.1 1.0.
Proof.
  destruct (setParameters_sequential default_system
              (Partial.make (Some 2) (Some (-1)) None)) as (_ & _ & _ & Hdamping & _).
  exact (Hdamping eq_refl eq_refl).
Defined.

Lemma getSystemProperties_formulas_witness :
  exists p,
    getSystemProperties shm = (Ok p, shm)
    /\ Properties.zeta p = 0 /\ Properties.Q p = infinity
    /\ Properties.regime p = "underdamped".
Proof.
  destruct (getSystemProperties_formulas shm)
    as (p & Hrun & _ & _ & _ & _ & _ & _ & Hzero & Hregime & _).
  exists p. split; [exact Hrun|].
  destruct (Hzero eq_refl eq_refl) as [Hzeta HQ].
  split; [exact Hzeta|]. split; [exact HQ|].
  exact (Hregime eq_refl eq_refl).
Defined.

Lemma setForcing_unknown_witness :
  setForcing (host := sample_host) "unknown" (Some ∅) default_system
  = (Throw "Unknown forcing function: unknown", default_system).
Proof.
  apply (setForcing_unknown (host := sample_host)).
  - compute_done.
  - compute_done.
Defined.

Lemma setForcing_catalog_witness :
  exists f d,
    Forcing.presets (host := sample_host) !! "sine" = Some f
    /\ Forcing.defaultParams !! "sine" = Some d
    /\ setForcing (host := sample_host) "sine" (Some sample_overrides) default_system =
         (Ok tt, mkMachine (set_forcing "sine" (Forcing.Own f)
                              ((default ∅ (Some sample_overrides)) ∪ d)
                              (this default_system))
                           (objs default_system))
    /\ forall key,
         forcingParams (this (snd (setForcing (host := sample_host) "sine"
                                     (Some sample_overrides) default_system))) !! key
         = match default ∅ (Some sample_overrides) !! key with
           | Some value => Some value
           | None => d !! key
           end.
Proof.
  apply (setForcing_catalog (host := sample_host)).
  do 2 apply list_elem_of_further. apply list_elem_of_here.
Defined.

Lemma setForcing_overrides_witness :
  let σ' := snd (setForcing (host := sample_host) "sine" (Some sample_overrides)
                   default_system) in
  fst (setForcing (host := sample_host) "sine" (Some sample_overrides) default_system)
    = Ok tt
  /\ selection σ'
     = Selection.make "sine" (sample_overrides ∪ waveform_params (WSine 1.0 1.0))
  /\ force_at (host := sample_host) σ' 0.25
     = Ok (waveform_value (host := sample_host) (resolve (WSine 1.0 1.0) sample_overrides)
             0.25).
Proof.
  apply (setForcing_overrides (host := sample_host) "sine" (WSine 1.0 1.0)
           sample_overrides default_system 0.25).
  do 2 apply list_elem_of_further. apply list_elem_of_here.
Defined.

Lemma impulse_of_no_width_witness :
  force_at (host := sample_host)
    (snd (setForcing (host := sample_host) "impulse" (Some widthless) default_system)) 1.0
  = Ok 0.
Proof.
  exact (impulse_of_no_width (host := sample_host) widthless 0.0 default_system 1.0
           eq_refl eq_refl).
Defined.

Lemma integrators_keep_nan_witness :
  let s := {| y := nan; v := 1.0; t := 0.0 |} in
  let s' := {| y := nan; v := nan; t := 0.0 + 0.1 |} in
  (y s = nan -> y s' = nan) /\ (v s = nan -> v s' = nan) /\ (t s = nan -> t s' = nan)
  /\ (0.1 = nan -> s' = {| y := nan; v := nan; t := nan |}).
Proof.
  exact (integrators_keep_nan {| y := nan; v := 1.0; t := 0.0 |}
           {| y := nan; v := nan; t := 0.0 + 0.1 |}
           (fun s => Ok (oscillator (y s) (v s) (t s))) 0.1 (or_introl eq_refl)).
Defined.

Lemma rest_point_is_fixed_witness :
  let s := {| y := 1.5; v := 0.0; t := 2.0 |} in
  let f := fun _ : State => Ok {| dydt := 0; dvdt := 0 |} in
  rk4Step s f 0.01 = Ok {| y := 1.5; v := 0.0; t := 2.0 + 0.01 |}
  /\ eulerStep s f 0.01 = Ok {| y := 1.5; v := 0.0; t := 2.0 + 0.01 |}.
Proof.
  apply (rest_point_is_fixed {| y := 1.5; v := 0.0; t := 2.0 |}
           (fun _ => Ok {| dydt := 0; dvdt := 0 |}) 0.01).
  - reflexivity.
  - reflexivity.
  - unfold not_minus_zero. vm_compute. discriminate.
  - unfold not_minus_zero. vm_compute. discriminate.
Defined.

Lemma rest_is_kept_witness :
  current (run (host := sample_host) (Step <$> [0.01; 0.5]) resting)
  = Some {| y := 0; v := 0; t := foldl PrimFloat.add 0.0 [0.01; 0.5] |}.
Proof.
  apply (rest_is_kept (host := sample_host) resting Forcing.none 0.0 [0.01; 0.5]).
  - reflexivity.
  - reflexivity.
  - reflexivity.
  - repeat split; reflexivity.
  - repeat split; reflexivity.
  - repeat constructor.
Defined.

Lemma nan_state_is_absorbing_witness :
  let s := {| y := nan; v := 0.0; t := 0.0 |} in
  exists s', current (run (host := sample_host) sample_calls astray) = Some s'
    /\ (y s = nan -> y s' = nan) /\ (v s = nan -> v s' = nan) /\ (t s = nan -> t s' = nan).
Proof.
  exact (nan_state_is_absorbing (host := sample_host) astray
           {| y := nan; v := 0.0; t := 0.0 |} sample_calls eq_refl).
Defined.

Lemma run_invariant_witness :
  let σ := run (host := sample_host) sample_calls default_system in
  wf σ /\ valid_parameters σ /\ in_sync (host := sample_host) σ
  /\ (exists more, objs σ = [] ++ more)
  /\ y0 (this σ) = default 1.0 (Config.y0 Config.empty)
  /\ v0 (this σ) = default 0.0 (Config.v0 Config.empty).
Proof.
  exact (run_invariant (host := sample_host) Config.empty [] default_system sample_calls
           eq_refl).
Defined.

Lemma clock_adds_each_dt_witness :
  exists s, current (run (host := sample_host) sample_calls default_system) = Some s
            /\ t s = elapsed sample_calls.
Proof.
  exact (clock_adds_each_dt (host := sample_host) Config.empty [] default_system
           sample_calls eq_refl sample_calls_own).
Defined.

Lemma step_never_throws_witness :
  exists r σ', step (host := sample_host) nan
                 (run (host := sample_host) sample_calls default_system) = (Ok r, σ').
Proof.
  exact (step_never_throws (host := sample_host) Config.empty [] default_system
           sample_calls nan eq_refl sample_calls_own).
Defined.

Lemma getEnergy_never_negative_witness :
  let σ := run (host := sample_host) sample_calls default_system in
  exists s e,
    current σ = Some s
    /\ getEnergy σ = (Ok e, σ)
    /\ e = 0.5 * m (this σ) * v s * v s + 0.5 * k (this σ) * y s * y s
    /\ (e <? 0) = false.
Proof.
  exact (getEnergy_never_negative (host := sample_host) Config.empty [] default_system
           sample_calls eq_refl).
Defined.

Lemma getState_snapshots_witness :
  let σ := default_system in
  let s := {| y := 1.0; v := 0.0; t := 0.0 |} in
  exists l1 l2 σ1 σ2,
    getState σ = (Ok l1, σ1) /\ getState σ1 = (Ok l2, σ2)
    /\ l1 <> l2 /\ l1 <> state (this σ) /\ l2 <> state (this σ)
    /\ objs σ2 !! l1 = Some s /\ objs σ2 !! l2 = Some s
    /\ this σ2 = this σ
    /\ (forall l o, objs σ !! l = Some o -> objs σ2 !! l = Some o)
    /\ (forall o, current (mutate l1 o σ2) = Some s
                  /\ objs (mutate l1 o σ2) !! l2 = Some s).
Proof.
  exact (getState_snapshots default_system {| y := 1.0; v := 0.0; t := 0.0 |} eq_refl).
Defined.

Lemma free_particle_keeps_velocity_witness :
  current (snd (step (host := sample_host) 0.01 free_particle))
  = Some {| y := 0.0 + 0.01 * ((1.0 + 2 * 1.0 + 2 * 1.0 + 1.0) / 6);
            v := 1.0;
            t := 0.0 + 0.01 |}.
Proof.
  apply (free_particle_keeps_velocity (host := sample_host) free_particle
           {| y := 0.0; v := 1.0; t := 0.0 |} Forcing.none 0.01).
  - reflexivity.
  - reflexivity.
  - reflexivity.
  - reflexivity.
  - reflexivity.
  - reflexivity.
  - repeat constructor.
  - unfold not_minus_zero. vm_compute. discriminate.
Defined.

Lemma replay_after_reset_witness :
  let σ1 := snd (reset (run (host := sample_host) (Step <$> [0.01; 0.01]) default_system)) in
  current (run (host := sample_host) sample_calls σ1)
    = current (run (host := sample_host) sample_calls default_system)
  /\ parameters (run (host := sample_host) sample_calls σ1)
     = parameters (run (host := sample_host) sample_calls default_system)
  /\ selection (run (host := sample_host) sample_calls σ1)
     = selection (run (host := sample_host) sample_calls default_system)
  /\ fst (getEnergy (run (host := sample_host) sample_calls σ1))
     = fst (getEnergy (run (host := sample_host) sample_calls default_system)).
Proof.
  exact (replay_after_reset (host := sample_host) Config.empty [] default_system
           [0.01; 0.01] sample_calls eq_refl).
Defined.

Lemma objects_are_never_mutated_witness :
  let σ := run (host := sample_host) sample_calls default_system in
  let o := {| y := 1.0; v := 0.0; t := 0.0 |} in
  objs σ !! 0%nat = Some o
  /\ objs (snd (reset σ)) !! 0%nat = Some o
  /\ objs (snd (getState σ)) !! 0%nat = Some o.
Proof.
  exact (objects_are_never_mutated (host := sample_host) default_system sample_calls 0
           {| y := 1.0; v := 0.0; t := 0.0 |} eq_refl).
Defined.

Lemma square_before_zero_witness :
  force_at (host := sample_host)
    (snd (setForcing (host := sample_host) "square"
            (Some {[ "amplitude" := 2.0; "frequency" := 0.5 ]}) default_system)) (-3.0)
  = Ok 2.0.
Proof.
  destruct (square_before_zero (host := sample_host)
              {[ "amplitude" := 2.0; "frequency" := 0.5 ]} default_system (-3.0))
    as [Hbefore _].
  apply Hbefore.
  - vm_compute. reflexivity.
  - reflexivity.
  - reflexivity.
Defined.
